(** * Relay session of the outbound calling agent (src/index.js)

    A shallow embedding of the per-call relay that bridges the Twilio
    media stream ([connection]) and the OpenAI realtime socket
    ([openAiWs]): the five connection-specific variables, the handlers
    registered in the '/media-stream' route, and the sends and closes
    they issue.  The base64 codec of the runtime's [Buffer], which the
    audio-delta branch calls, is modelled in [Base64]. *)

From Stdlib Require Import Bool List NArith ZArith Ascii String Lia.
Import ListNotations.

(* ================================================================= *)
(** ** JavaScript truthiness of the values the handlers test *)

Module JS.

(** [if (v)] for a value that is [null] or a string: [null] and the
    empty string are falsy. *)
Definition truthy (v : option string) : bool :=
  match v with
  | None => false
  | Some s => negb (String.eqb s EmptyString)
  end.

(** [!v] for a value that is [null] or a number: [null] and [0] are
    falsy. *)
Definition not_num (v : option N) : bool :=
  match v with
  | None => true
  | Some n => N.eqb n 0
  end.

(** [v != null]. *)
Definition not_null {A : Type} (v : option A) : bool :=
  match v with
  | None => false
  | Some _ => true
  end.

(** The number a value that is [null] or a number stands for in an
    arithmetic expression: [null] is read as [0]. *)
Definition to_number (v : option N) : Z :=
  match v with
  | None => 0%Z
  | Some n => Z.of_N n
  end.

End JS.

(* ================================================================= *)
(** ** The runtime's base64 codec

    [Buffer.from(s, 'base64')] decodes leniently: it accepts the standard
    and the URL-safe alphabet, skips every character outside them, and
    stops at the first padding character; a trailing group of two or
    three sextets gives one or two bytes, a single trailing sextet is
    dropped.  [buf.toString('base64')] encodes with the standard alphabet
    and pads with '='.  Bytes and sextets are numbers, combined with the
    shifts and masks of the decoder and encoder. *)

Module Base64.

Local Open Scope N_scope.

Definition Buffer := list N.

Definition pad : ascii := "="%char.

Definition alphabet : list ascii :=
  list_ascii_of_string
    "ABCDEFGHIJKLMNOPQRSTUVWXYZabcdefghijklmnopqrstuvwxyz0123456789+/".

(** Sextet to character. *)
Definition base64_char (v : N) : ascii := nth (N.to_nat v) alphabet pad.

Fixpoint index_of (c : ascii) (l : list ascii) (i : N) : option N :=
  match l with
  | [] => None
  | x :: r => if Ascii.eqb c x then Some i else index_of c r (i + 1)
  end.

(** Character to sextet, standard alphabet only. *)
Definition unbase64_std (c : ascii) : option N := index_of c alphabet 0.

(** Character to sextet as the decoder reads it: '-' and '_' of the
    URL-safe alphabet stand for 62 and 63. *)
Definition unbase64 (c : ascii) : option N :=
  if Ascii.eqb c "-"%char then Some 62
  else if Ascii.eqb c "_"%char then Some 63
  else unbase64_std c.

(** The four sextets of a group of three bytes. *)
Definition sextet0 (b0 : N) : N := N.shiftr b0 2.
Definition sextet1 (b0 b1 : N) : N :=
  N.lor (N.shiftl (N.land b0 3) 4) (N.shiftr b1 4).
Definition sextet2 (b1 b2 : N) : N :=
  N.lor (N.shiftl (N.land b1 15) 2) (N.shiftr b2 6).
Definition sextet3 (b2 : N) : N := N.land b2 63.

Fixpoint encode (buf : Buffer) : list ascii :=
  match buf with
  | [] => []
  | [b0] =>
      [base64_char (sextet0 b0); base64_char (sextet1 b0 0); pad; pad]
  | [b0; b1] =>
      [base64_char (sextet0 b0); base64_char (sextet1 b0 b1);
       base64_char (sextet2 b1 0); pad]
  | b0 :: b1 :: b2 :: rest =>
      base64_char (sextet0 b0) :: base64_char (sextet1 b0 b1)
        :: base64_char (sextet2 b1 b2) :: base64_char (sextet3 b2)
        :: encode rest
  end.

(** The three bytes of a group of four sextets. *)
Definition octet0 (s0 s1 : N) : N :=
  N.lor (N.shiftl (N.land s0 63) 2) (N.shiftr (N.land s1 48) 4).
Definition octet1 (s1 s2 : N) : N :=
  N.lor (N.shiftl (N.land s1 15) 4) (N.shiftr (N.land s2 60) 2).
Definition octet2 (s2 s3 : N) : N :=
  N.lor (N.shiftl (N.land s2 3) 6) (N.land s3 63).

(** The legal sextets of the input, up to the first padding character. *)
Fixpoint sextets (s : list ascii) : list N :=
  match s with
  | [] => []
  | c :: r =>
      if Ascii.eqb c pad then []
      else match unbase64 c with
           | Some v => v :: sextets r
           | None => sextets r
           end
  end.

Fixpoint octets (v : list N) : Buffer :=
  match v with
  | s0 :: s1 :: s2 :: s3 :: rest =>
      octet0 s0 s1 :: octet1 s1 s2 :: octet2 s2 s3 :: octets rest
  | [s0; s1; s2] => [octet0 s0 s1; octet1 s1 s2]
  | [s0; s1] => [octet0 s0 s1]
  | _ => []
  end.

Definition decode (s : list ascii) : Buffer := octets (sextets s).

(** [Buffer.from(s, 'base64')] *)
Definition from (s : string) : Buffer := decode (list_ascii_of_string s).

(** [buf.toString('base64')] *)
Definition toString (buf : Buffer) : string :=
  string_of_list_ascii (encode buf).

(** [Buffer.from(s, 'base64').toString('base64')] *)
Definition normalize (s : string) : string := toString (from s).

(** Canonical base64: groups of four characters of the standard
    alphabet, the last group possibly padded with one or two '=', the
    bits of its last sextet that encode no byte being zero. *)
Fixpoint canonical_chars (s : list ascii) : bool :=
  match s with
  | [] => true
  | a :: b :: c :: d :: r =>
      match unbase64_std a, unbase64_std b with
      | Some _, Some y =>
          if Ascii.eqb c pad then
            Ascii.eqb d pad && (N.land y 15 =? 0)
            && match r with [] => true | _ => false end
          else
            match unbase64_std c with
            | Some z =>
                if Ascii.eqb d pad then
                  (N.land z 3 =? 0)
                  && match r with [] => true | _ => false end
                else
                  match unbase64_std d with
                  | Some _ => canonical_chars r
                  | None => false
                  end
            | None => false
            end
      | _, _ => false
      end
  | _ => false
  end.

Definition canonical (s : string) : bool :=
  canonical_chars (list_ascii_of_string s).

(** The numbers below [n], for checks by enumeration. *)
Definition below (n : nat) : list N := map N.of_nat (seq 0 n).

(** All bytes and all sextets, written out. *)
Definition all_bytes : list N := Eval vm_compute in below 256.
Definition all_sextets : list N := Eval vm_compute in below 64.

Definition is_byte (b : N) : Prop := b < 256.

(** Boolean checks of the two character tables against each other,
    run over [all_sextets] and [all_bytes]. *)
Definition option_N_eqb (a b : option N) : bool :=
  match a, b with
  | Some x, Some y => x =? y
  | None, None => true
  | _, _ => false
  end.

Definition char_of_sextet_ok (v : N) : bool :=
  option_N_eqb (unbase64_std (base64_char v)) (Some v)
  && option_N_eqb (unbase64 (base64_char v)) (Some v)
  && negb (Ascii.eqb (base64_char v) pad).

Definition sextet_of_char_ok (n : N) : bool :=
  let c := ascii_of_N n in
  match unbase64 c with
  | Some v => v <? 64
  | None => true
  end
  && match unbase64_std c with
     | Some v =>
         Ascii.eqb (base64_char v) c && negb (Ascii.eqb c pad)
         && option_N_eqb (unbase64 c) (Some v)
     | None => true
     end.

End Base64.

(* ================================================================= *)
(** ** Transports, messages and effects *)

(** The two sockets of a session: [connection] is the Twilio media
    stream, [openAiWs] the OpenAI realtime socket. *)
Inductive transport : Type :=
| connection
| openAiWs.

(** [readyState] of a socket. *)
Inductive readyState : Type :=
| CONNECTING
| OPEN
| CLOSING
| CLOSED.

Definition readyState_eqb (a b : readyState) : bool :=
  match a, b with
  | CONNECTING, CONNECTING | OPEN, OPEN | CLOSING, CLOSING | CLOSED, CLOSED =>
      true
  | _, _ => false
  end.

(** The objects the handlers serialise and send. *)
Inductive message : Type :=
| session_update                      (* { type: 'session.update', session } *)
| conversation_item_create            (* initialConversationItem *)
| response_create                     (* { type: 'response.create' } *)
| input_audio_buffer_append (audio : string)
| conversation_item_truncate
    (item_id : option string) (content_index : Z) (audio_end_ms : Z)
| media_event (streamSid : option string) (payload : string)
| mark_event (streamSid : option string) (name : string)
| clear_event (streamSid : option string).

(** What a handler does to the outside: a call of [send] or of [close]
    on one of the sockets.  A [send] is recorded when the call is made,
    whatever the state of the socket. *)
Inductive effect : Type :=
| send (t : transport) (m : message)
| close (t : transport).

(* ================================================================= *)
(** ** Session state *)

(** The connection-specific variables (index.js, lines 74-78).  Media
    timestamps are millisecond offsets from the start of the stream. *)
Record session : Type := mkSession {
  streamSid : option string;
  latestMediaTimestamp : N;
  lastAssistantItem : option string;
  markQueue : list string;
  responseStartTimestampTwilio : option N
}.

(** The variables together with the [readyState] of the two sockets. *)
Record world : Type := mkWorld {
  vars : session;
  openAiWs_readyState : readyState;
  connection_readyState : readyState
}.

Definition initial_session : session :=
  {| streamSid := None;
     latestMediaTimestamp := 0%N;
     lastAssistantItem := None;
     markQueue := [];
     responseStartTimestampTwilio := None |}.

(** On 'Client connected': the Twilio socket is open, the OpenAI socket
    has just been created. *)
Definition initial_world : world :=
  {| vars := initial_session;
     openAiWs_readyState := CONNECTING;
     connection_readyState := OPEN |}.

Definition set_streamSid (v : option string) (s : session) : session :=
  mkSession v (latestMediaTimestamp s) (lastAssistantItem s) (markQueue s)
    (responseStartTimestampTwilio s).

Definition set_latestMediaTimestamp (v : N) (s : session) : session :=
  mkSession (streamSid s) v (lastAssistantItem s) (markQueue s)
    (responseStartTimestampTwilio s).

Definition set_lastAssistantItem (v : option string) (s : session) : session :=
  mkSession (streamSid s) (latestMediaTimestamp s) v (markQueue s)
    (responseStartTimestampTwilio s).

Definition set_markQueue (v : list string) (s : session) : session :=
  mkSession (streamSid s) (latestMediaTimestamp s) (lastAssistantItem s) v
    (responseStartTimestampTwilio s).

Definition set_responseStartTimestampTwilio (v : option N) (s : session)
  : session :=
  mkSession (streamSid s) (latestMediaTimestamp s) (lastAssistantItem s)
    (markQueue s) v.

Definition set_readyState (t : transport) (r : readyState) (w : world)
  : world :=
  match t with
  | openAiWs => mkWorld (vars w) r (connection_readyState w)
  | connection => mkWorld (vars w) (openAiWs_readyState w) r
  end.

Definition get_readyState (t : transport) (w : world) : readyState :=
  match t with
  | openAiWs => openAiWs_readyState w
  | connection => connection_readyState w
  end.

(* ================================================================= *)
(** ** Handlers as computations over the world *)

(** A handler reads and writes the world and issues effects in order. *)
Definition M (A : Type) : Type := world -> A * world * list effect.

Definition ret {A : Type} (a : A) : M A := fun w => (a, w, []).

Definition bind {A B : Type} (m : M A) (k : A -> M B) : M B :=
  fun w =>
    let '(a, w1, o1) := m w in
    let '(b, w2, o2) := k a w1 in
    (b, w2, o1 ++ o2).

Declare Scope relay_scope.
Delimit Scope relay_scope with relay.

Notation "x <- m ;; k" := (bind m (fun x => k))
  (at level 61, m at next level, right associativity) : relay_scope.
Notation "m ;; k" := (bind m (fun _ => k))
  (at level 61, right associativity) : relay_scope.

Local Open Scope relay_scope.

Definition read {A : Type} (f : session -> A) : M A :=
  fun w => (f (vars w), w, []).

Definition readyState_of (t : transport) : M readyState :=
  fun w => (get_readyState t w, w, []).

Definition assign (f : session -> session) : M unit :=
  fun w =>
    (tt, mkWorld (f (vars w)) (openAiWs_readyState w)
           (connection_readyState w), []).

Definition emit (e : effect) : M unit := fun w => (tt, w, [e]).

Definition when (b : bool) (m : M unit) : M unit := if b then m else ret tt.

(** The world and the effects of running a handler. *)
Definition exec (m : M unit) (w : world) : world * list effect :=
  let '(_, w', o) := m w in (w', o).

(** [t.close()]: the call is recorded and the socket starts closing. *)
Definition close_socket (t : transport) : M unit :=
  fun w => (tt, set_readyState t CLOSING w, [close t]).

(** [initializeSession] together with [sendInitialConversationItem]
    (lines 88-128). *)
Definition sendInitialConversationItem : M unit :=
  emit (send openAiWs conversation_item_create) ;;
  emit (send openAiWs response_create).

Definition initializeSession : M unit :=
  emit (send openAiWs session_update) ;;
  sendInitialConversationItem.

(** [handleSpeechStartedEvent] (lines 131-157). *)
Definition handleSpeechStartedEvent : M unit :=
  q <- read markQueue ;;
  start <- read responseStartTimestampTwilio ;;
  when ((0 <? List.length q)%nat && JS.not_null start)
    (latest <- read latestMediaTimestamp ;;
     let elapsedTime := (Z.of_N latest - JS.to_number start)%Z in
     item <- read lastAssistantItem ;;
     when (JS.truthy item)
       (emit (send openAiWs
                (conversation_item_truncate item 0%Z elapsedTime))) ;;
     sid <- read streamSid ;;
     emit (send connection (clear_event sid)) ;;
     assign (set_markQueue []) ;;
     assign (set_lastAssistantItem None) ;;
     assign (set_responseStartTimestampTwilio None)).

(** [sendMark] (lines 160-170). *)
Definition sendMark (c : transport) (sid : option string) : M unit :=
  when (JS.truthy sid)
    (emit (send c (mark_event sid "responsePart"%string)) ;;
     q <- read markQueue ;;
     assign (set_markQueue (q ++ ["responsePart"%string]))).

(** The fields a handler reads of a message parsed from the OpenAI
    socket. *)
Record response : Type := mkResponse {
  type : string;
  delta : option string;
  item_id : option string
}.

(** The 'message' handler of [openAiWs] (lines 179-215); [None] is a
    message that [JSON.parse] rejects, dropped by the [catch].  Under the
    test of line 188 the delta is a non-empty string. *)
Definition openAiWs_on_message (data : option response) : M unit :=
  match data with
  | None => ret tt
  | Some r =>
      when (String.eqb (type r) "response.audio.delta"
            && JS.truthy (delta r))
        (match delta r with
         | Some d =>
             sid <- read streamSid ;;
             emit (send connection
                     (media_event sid (Base64.toString (Base64.from d)))) ;;
             start <- read responseStartTimestampTwilio ;;
             latest <- read latestMediaTimestamp ;;
             when (JS.not_num start)
               (assign (set_responseStartTimestampTwilio (Some latest))) ;;
             when (JS.truthy (item_id r))
               (assign (set_lastAssistantItem (item_id r))) ;;
             sendMark connection sid
         | None => ret tt
         end) ;;
      when (String.eqb (type r) "input_audio_buffer.speech_started")
        handleSpeechStartedEvent
  end.

(** A message parsed from the Twilio socket, by its [event] field.  The
    [streamSid] of a start message is stored as it comes: [None] is a
    start message whose [streamSid] is null or absent. *)
Inductive twilio_data : Type :=
| media (timestamp : N) (payload : string)
| start (streamSid : option string)
| mark
| other (event : string).

(** The 'message' handler of [connection] (lines 218-254). *)
Definition connection_on_message (data : option twilio_data) : M unit :=
  match data with
  | None => ret tt
  | Some (media timestamp payload) =>
      assign (set_latestMediaTimestamp timestamp) ;;
      r <- readyState_of openAiWs ;;
      when (readyState_eqb r OPEN)
        (emit (send openAiWs (input_audio_buffer_append payload)))
  | Some (start sid) =>
      assign (set_streamSid sid) ;;
      assign (set_responseStartTimestampTwilio None) ;;
      assign (set_latestMediaTimestamp 0%N)
  | Some mark =>
      q <- read markQueue ;;
      when (0 <? List.length q)%nat (assign (set_markQueue (tl q)))
  | Some (other _) => ret tt
  end.

(** The 'close' handler of [connection] (lines 257-260). *)
Definition connection_on_close : M unit :=
  r <- readyState_of openAiWs ;;
  when (readyState_eqb r OPEN) (close_socket openAiWs).

(** The 'close' and 'error' handlers of [openAiWs] (lines 263-269) only
    log. *)
Definition openAiWs_on_close : M unit := ret tt.
Definition openAiWs_on_error : M unit := ret tt.

(** The 'open' handler of [openAiWs] (lines 173-176) logs and arms the
    timer that runs [initializeSession]. *)
Definition openAiWs_on_open : M unit := ret tt.

(* ================================================================= *)
(** ** Events and runs *)

(** What can happen to a session: the events of the two sockets and the
    expiry of the timer armed on 'open'. *)
Inductive event : Type :=
| ev_openAiWs_open
| ev_timeout
| ev_openAiWs_message (data : option response)
| ev_openAiWs_close
| ev_openAiWs_error
| ev_connection_message (data : option twilio_data)
| ev_connection_close.

(** The socket library updates [readyState] before it calls the handler
    of 'open' or 'close'. *)
Definition arrive (e : event) (w : world) : world :=
  match e with
  | ev_openAiWs_open => set_readyState openAiWs OPEN w
  | ev_openAiWs_close => set_readyState openAiWs CLOSED w
  | ev_connection_close => set_readyState connection CLOSED w
  | _ => w
  end.

Definition handler (e : event) : M unit :=
  match e with
  | ev_openAiWs_open => openAiWs_on_open
  | ev_timeout => initializeSession
  | ev_openAiWs_message data => openAiWs_on_message data
  | ev_openAiWs_close => openAiWs_on_close
  | ev_openAiWs_error => openAiWs_on_error
  | ev_connection_message data => connection_on_message data
  | ev_connection_close => connection_on_close
  end.

Definition step (w : world) (e : event) : world * list effect :=
  exec (handler e) (arrive e w).

(** Processing a sequence of events, one after the other. *)
Fixpoint run (w : world) (es : list event) : world * list effect :=
  match es with
  | [] => (w, [])
  | e :: es' =>
      let '(w1, o1) := step w e in
      let '(w2, o2) := run w1 es' in
      (w2, o1 ++ o2)
  end.

Definition state_after (es : list event) : world :=
  fst (run initial_world es).

Definition effects_of (es : list event) : list effect :=
  snd (run initial_world es).

(** A state the session can be in. *)
Definition reachable (w : world) : Prop :=
  exists es, state_after es = w.

(* ================================================================= *)
(** ** Observations on events, states and effects *)

Local Open Scope string_scope.
Local Open Scope list_scope.

(** The two tests of the 'message' handler of [openAiWs] (lines 188 and
    209). *)
Definition is_audio_delta (r : response) : bool :=
  String.eqb (type r) "response.audio.delta" && JS.truthy (delta r).

Definition is_speech_started (r : response) : bool :=
  String.eqb (type r) "input_audio_buffer.speech_started".

(** The guard of [handleSpeechStartedEvent] (line 132). *)
Definition interruption_guard (s : session) : Prop :=
  markQueue s <> [] /\ responseStartTimestampTwilio s <> None.

(** The session after an interruption: the three variables reset at
    lines 153-155. *)
Definition interrupted (w : world) : world :=
  mkWorld
    (mkSession (streamSid (vars w)) (latestMediaTimestamp (vars w)) None []
       None)
    (openAiWs_readyState w) (connection_readyState w).

(** The truncate instruction of an interruption, if any (lines 136-145). *)
Definition truncation (s : session) (t : N) : list effect :=
  if JS.truthy (lastAssistantItem s) then
    [send openAiWs
       (conversation_item_truncate (lastAssistantItem s) 0%Z
          (Z.of_N (latestMediaTimestamp s) - Z.of_N t)%Z)]
  else [].

(** The session after an audio delta has been relayed (lines 196-206). *)
Definition relayed (s : session) (r : response) : session :=
  mkSession (streamSid s) (latestMediaTimestamp s)
    (if JS.truthy (item_id r) then item_id r else lastAssistantItem s)
    (if JS.truthy (streamSid s) then markQueue s ++ ["responsePart"]
     else markQueue s)
    (if JS.not_num (responseStartTimestampTwilio s)
     then Some (latestMediaTimestamp s)
     else responseStartTimestampTwilio s).

(** What relaying an audio delta sends (lines 189-194 and 206). *)
Definition relay_effects (s : session) (d : string) : list effect :=
  send connection (media_event (streamSid s) (Base64.normalize d))
  :: (if JS.truthy (streamSid s)
      then [send connection (mark_event (streamSid s) "responsePart")]
      else []).

(** Kinds of effects. *)
Definition is_send (e : effect) : bool :=
  match e with
  | send _ _ => true
  | close _ => false
  end.

Definition is_truncate (e : effect) : bool :=
  match e with
  | send openAiWs (conversation_item_truncate _ _ _) => true
  | _ => false
  end.

Definition is_clear (e : effect) : bool :=
  match e with
  | send connection (clear_event _) => true
  | _ => false
  end.

Definition is_media (e : effect) : bool :=
  match e with
  | send connection (media_event _ _) => true
  | _ => false
  end.

Definition is_mark (e : effect) : bool :=
  match e with
  | send connection (mark_event _ _) => true
  | _ => false
  end.

Definition count (p : effect -> bool) (o : list effect) : nat :=
  List.length (filter p o).

Definition sends (o : list effect) : list effect := filter is_send o.

(** A mark or a clear event carries a stream identifier. *)
Definition carries_streamSid (e : effect) : Prop :=
  match e with
  | send _ (mark_event sid _) => sid <> None
  | send _ (clear_event sid) => sid <> None
  | _ => True
  end.

(** A mark event carries a truthy stream identifier. *)
Definition mark_names_stream (e : effect) : Prop :=
  match e with
  | send _ (mark_event sid _) => JS.truthy sid = true
  | _ => True
  end.

(** The timestamps of the caller-audio events of a run, in order. *)
Fixpoint media_timestamps (es : list event) : list N :=
  match es with
  | [] => []
  | ev_connection_message (Some (media ts _)) :: es' =>
      ts :: media_timestamps es'
  | _ :: es' => media_timestamps es'
  end.

Fixpoint nondecreasing (l : list N) : bool :=
  match l with
  | a :: (b :: _) as r => (a <=? b)%N && nondecreasing r
  | _ => true
  end.

Definition is_start (e : event) : bool :=
  match e with
  | ev_connection_message (Some (start _)) => true
  | _ => false
  end.

Definition is_caller_audio (e : event) : bool :=
  match e with
  | ev_connection_message (Some (media _ _)) => true
  | _ => false
  end.

(** Events written as the sockets deliver them. *)
Definition audio_delta (d : string) (item : option string) : event :=
  ev_openAiWs_message (Some (mkResponse "response.audio.delta" (Some d) item)).

Definition speech_started : event :=
  ev_openAiWs_message
    (Some (mkResponse "input_audio_buffer.speech_started" None None)).

Definition response_done : event :=
  ev_openAiWs_message (Some (mkResponse "response.done" None None)).

Definition twilio (d : twilio_data) : event :=
  ev_connection_message (Some d).

(** States of a call.  The caller has spoken and nothing is being
    played, the OpenAI socket still connecting or already open. *)
Definition listening : world :=
  state_after [twilio (start (Some "S1")); twilio (media 100 "AAAA")].

Definition listening_connected : world :=
  state_after [ev_openAiWs_open; ev_timeout; twilio (start (Some "S1"));
               twilio (media 100 "AAAA")].

(** One chunk of an utterance has been relayed and is not yet
    acknowledged. *)
Definition playing : world :=
  state_after [twilio (start (Some "S1")); twilio (media 100 "AAAA");
               audio_delta "QUJD" (Some "I1")].

(** The events of a call up to the moment the caller starts to speak
    over the assistant. *)
Definition interrupted_call : list event :=
  [twilio (start (Some "S1")); twilio (media 100 "AAAA");
   audio_delta "QUJD" (Some "I1"); twilio (media 250 "AAAA")].

(** The assistant speaks first: the first chunk of its utterance is
    relayed before any caller audio of the stream. *)
Definition first_delta_at_zero : list event :=
  [twilio (start (Some "S1")); audio_delta "QUJD" (Some "I1")].

(** An utterance of one chunk that is played to its end. *)
Definition utterance_played_out : list event :=
  [twilio (start (Some "S1")); twilio (media 100 "AAAA");
   audio_delta "QUJD" (Some "I1"); response_done; twilio mark].

(** The count the specification compares [markQueue] with, the number
    of relayed chunks that await acknowledgment, written from its words
    over the events and what was sent: an interruption (a clear event is
    sent) forgets them all, a relayed chunk (a media event is sent) adds
    one, and an acknowledgment (a mark event of the Twilio socket)
    removes one, if there is one. *)
Definition is_acknowledgment (e : event) : bool :=
  match e with
  | ev_connection_message (Some mark) => true
  | _ => false
  end.

Definition pending_after (n : nat) (e : event) (o : list effect) : nat :=
  if existsb is_clear o then 0%nat
  else ((n + count is_media o) - (if is_acknowledgment e then 1 else 0))%nat.

Fixpoint pending_from (w : world) (n : nat) (es : list event) : nat :=
  match es with
  | [] => n
  | e :: es' =>
      let '(w', o) := step w e in
      pending_from w' (pending_after n e o) es'
  end.

Definition pending (es : list event) : nat :=
  pending_from initial_world 0 es.

(** A start event with a non-empty stream identifier, or any other
    event. *)
Definition start_names_stream (e : event) : bool :=
  match e with
  | ev_connection_message (Some (start sid)) => JS.truthy sid
  | _ => true
  end.

(** A start event that carries a stream identifier, or any other
    event. *)
Definition start_has_streamSid (e : event) : bool :=
  match e with
  | ev_connection_message (Some (start sid)) => JS.not_null sid
  | _ => true
  end.

(** A run in which a second start message arrives without a
    [streamSid] while a mark is queued, and another chunk is relayed. *)
Definition restart_without_streamSid : list event :=
  [twilio (start (Some "S1")); audio_delta "QUJD" (Some "I1");
   twilio (start None); audio_delta "QUJD" (Some "I1")].

(** Every send that a step issues goes to a socket that is open when the
    event is handled. *)
Definition every_send_is_guarded : Prop :=
  forall (w : world) (e : event) (t : transport) (m : message),
    In (send t m) (snd (step w e)) ->
    get_readyState t (arrive e w) = OPEN.

(** Invariants of the reachable states. *)
Definition item_truthy_or_null (w : world) : Prop :=
  lastAssistantItem (vars w) = None
  \/ JS.truthy (lastAssistantItem (vars w)) = true.

Definition queued_implies_streamSid (w : world) : Prop :=
  markQueue (vars w) <> [] -> streamSid (vars w) <> None.

Definition before_start (w : world) : Prop :=
  streamSid (vars w) = None /\ markQueue (vars w) = [].

Definition stamp_not_ahead (w : world) : Prop :=
  forall t,
    responseStartTimestampTwilio (vars w) = Some t ->
    (t <= latestMediaTimestamp (vars w))%N.

(** What a step does, for every event.  [Interrupt] and [Idle] are the
    two outcomes of a speech-started message. *)
Inductive step_spec (w : world) : event -> world * list effect -> Prop :=
| Relay r d :
    is_audio_delta r = true -> delta r = Some d ->
    step_spec w (ev_openAiWs_message (Some r))
      (mkWorld (relayed (vars w) r) (openAiWs_readyState w)
         (connection_readyState w),
       relay_effects (vars w) d)
| Interrupt r t :
    is_speech_started r = true ->
    responseStartTimestampTwilio (vars w) = Some t ->
    markQueue (vars w) <> [] ->
    step_spec w (ev_openAiWs_message (Some r))
      (interrupted w,
       truncation (vars w) t
       ++ [send connection (clear_event (streamSid (vars w)))])
| Idle r :
    is_speech_started r = true ->
    markQueue (vars w) = [] \/ responseStartTimestampTwilio (vars w) = None ->
    step_spec w (ev_openAiWs_message (Some r)) (w, [])
| Logged r :
    is_audio_delta r = false -> is_speech_started r = false ->
    step_spec w (ev_openAiWs_message (Some r)) (w, [])
| Unparsed_openAi :
    step_spec w (ev_openAiWs_message None) (w, [])
| Opened :
    step_spec w ev_openAiWs_open
      (mkWorld (vars w) OPEN (connection_readyState w), [])
| Initialized :
    step_spec w ev_timeout
      (w, [send openAiWs session_update;
           send openAiWs conversation_item_create;
           send openAiWs response_create])
| OpenAi_closed :
    step_spec w ev_openAiWs_close
      (mkWorld (vars w) CLOSED (connection_readyState w), [])
| OpenAi_failed :
    step_spec w ev_openAiWs_error (w, [])
| Caller_audio ts p :
    step_spec w (ev_connection_message (Some (media ts p)))
      (mkWorld (set_latestMediaTimestamp ts (vars w))
         (openAiWs_readyState w) (connection_readyState w),
       if readyState_eqb (openAiWs_readyState w) OPEN
       then [send openAiWs (input_audio_buffer_append p)]
       else [])
| Started sid :
    step_spec w (ev_connection_message (Some (start sid)))
      (mkWorld
         (mkSession sid 0%N (lastAssistantItem (vars w))
            (markQueue (vars w)) None)
         (openAiWs_readyState w) (connection_readyState w), [])
| Acknowledged :
    step_spec w (ev_connection_message (Some mark))
      (mkWorld (set_markQueue (tl (markQueue (vars w))) (vars w))
         (openAiWs_readyState w) (connection_readyState w), [])
| Ignored name :
    step_spec w (ev_connection_message (Some (other name))) (w, [])
| Unparsed_twilio :
    step_spec w (ev_connection_message None) (w, [])
| Hung_up :
    step_spec w ev_connection_close
      (mkWorld (vars w)
         (if readyState_eqb (openAiWs_readyState w) OPEN
          then CLOSING else openAiWs_readyState w)
         CLOSED,
       if readyState_eqb (openAiWs_readyState w) OPEN
       then [close openAiWs] else []).

(* ================================================================= *)
(** ** Further observations on runs *)

(** The audio of the audio-append messages sent on the OpenAI socket, in
    the order they are sent. *)
Fixpoint appended (o : list effect) : list string :=
  match o with
  | [] => []
  | send openAiWs (input_audio_buffer_append a) :: o' => a :: appended o'
  | _ :: o' => appended o'
  end.

(** The [readyState] of the OpenAI socket after an event: the socket
    library sets it on 'open' and 'close', and the 'close' handler of
    [connection] starts closing an open socket. *)
Definition openAiWs_readyState_after (r : readyState) (e : event)
  : readyState :=
  match e with
  | ev_openAiWs_open => OPEN
  | ev_openAiWs_close => CLOSED
  | ev_connection_close => if readyState_eqb r OPEN then CLOSING else r
  | _ => r
  end.

(** The payloads of the caller-audio events that find the OpenAI socket
    open, in the order of their arrival. *)
Fixpoint caller_audio_while_open (r : readyState) (es : list event)
  : list string :=
  match es with
  | [] => []
  | e :: es' =>
      match e with
      | ev_connection_message (Some (media _ p)) =>
          if readyState_eqb r OPEN then [p] else []
      | _ => []
      end ++ caller_audio_while_open (openAiWs_readyState_after r e) es'
  end.

(** Events that leave no trace: a message that does not parse, a Twilio
    message of another kind, the 'error' event of the OpenAI socket, and
    a message of the OpenAI socket that is neither an audio delta with a
    non-empty delta nor a speech-started message. *)
Definition is_dropped (e : event) : bool :=
  match e with
  | ev_openAiWs_message None => true
  | ev_openAiWs_message (Some r) =>
      negb (is_audio_delta r) && negb (is_speech_started r)
  | ev_openAiWs_error => true
  | ev_connection_message None => true
  | ev_connection_message (Some (other _)) => true
  | _ => false
  end.

(** The stream identifier of the most recent start event of a run, and
    [sid] if there is none. *)
Fixpoint stream_of (sid : option string) (es : list event) : option string :=
  match es with
  | [] => sid
  | ev_connection_message (Some (start s)) :: es' => stream_of s es'
  | _ :: es' => stream_of sid es'
  end.

(** The clock of the stream: the timestamp of the most recent
    caller-audio event since the most recent start event, [0] right
    after a start, and [t] if the run has neither. *)
Fixpoint clock_of (t : N) (es : list event) : N :=
  match es with
  | [] => t
  | ev_connection_message (Some (media ts _)) :: es' => clock_of ts es'
  | ev_connection_message (Some (start _)) :: es' => clock_of 0%N es'
  | _ :: es' => clock_of t es'
  end.

(** A media, mark or clear event is addressed to the stream [sid]. *)
Definition addressed_to (sid : option string) (e : effect) : Prop :=
  match e with
  | send _ (media_event s _) => s = sid
  | send _ (mark_event s _) => s = sid
  | send _ (clear_event s) => s = sid
  | _ => True
  end.

Definition is_close (e : effect) : bool :=
  match e with
  | close _ => true
  | send _ _ => false
  end.

(** A close, if it is one, is a close of the OpenAI socket. *)
Definition closes_openAiWs_only (e : effect) : Prop :=
  match e with
  | close t => t = openAiWs
  | send _ _ => True
  end.

Definition is_openAiWs_open (e : event) : bool :=
  match e with
  | ev_openAiWs_open => true
  | _ => false
  end.

Definition is_hang_up (e : event) : bool :=
  match e with
  | ev_connection_close => true
  | _ => false
  end.

(** The three messages of [initializeSession], and the effects of a run
    that are one of them. *)
Definition bootstrap_messages : list effect :=
  [send openAiWs session_update;
   send openAiWs conversation_item_create;
   send openAiWs response_create].

Definition is_bootstrap (e : effect) : bool :=
  match e with
  | send _ session_update => true
  | send _ conversation_item_create => true
  | send _ response_create => true
  | _ => false
  end.

Definition is_timeout (e : event) : bool :=
  match e with
  | ev_timeout => true
  | _ => false
  end.

(** What a message of the Twilio socket can make the relay send: an
    audio-append on the OpenAI socket.  What a message of the OpenAI
    socket can make it send: a media, mark or clear event on the Twilio
    socket, or a truncate on the OpenAI socket. *)
Definition is_audio_append (e : effect) : bool :=
  match e with
  | send openAiWs (input_audio_buffer_append _) => true
  | _ => false
  end.

Definition is_playback_control (e : effect) : bool :=
  is_media e || is_mark e || is_clear e || is_truncate e.

(** The audio deltas of a run that the relay has relayed. *)
Definition relayed_in (es : list event) (r : response) : Prop :=
  In (ev_openAiWs_message (Some r)) es /\ is_audio_delta r = true.

(** [lastAssistantItem] is null or the [item_id] of a relayed delta. *)
Definition item_was_relayed (es : list event) (item : option string) : Prop :=
  item = None
  \/ (exists r, relayed_in es r /\ item_id r = item /\ JS.truthy item = true).

(** The payload of a media event is canonical base64, a whole number of
    groups of four characters. *)
Definition media_payload_canonical (e : effect) : Prop :=
  match e with
  | send _ (media_event _ p) =>
      Base64.canonical p = true /\ (String.length p mod 4 = 0)%nat
  | _ => True
  end.

(** What each kind of event can make the relay do. *)
Definition allowed_effects (e : event) (o : list effect) : Prop :=
  match e with
  | ev_connection_message _ => Forall (fun x => is_audio_append x = true) o
  | ev_openAiWs_message _ => Forall (fun x => is_playback_control x = true) o
  | ev_timeout => o = bootstrap_messages
  | ev_connection_close => o = [] \/ o = [close openAiWs]
  | ev_openAiWs_open | ev_openAiWs_close | ev_openAiWs_error => o = []
  end.

(** Neither a mark, nor a clear, nor a truncate. *)
Definition no_playback_control (e : effect) : Prop :=
  is_mark e = false /\ is_clear e = false /\ is_truncate e = false.

(** The caller hangs up, then the OpenAI socket opens and its timer
    expires. *)
Definition hang_up_then_open : list event :=
  [ev_connection_close; ev_openAiWs_open; ev_timeout].
(* ================================================================= *)
(** * Properties of the base64 codec *)

Section Base64Facts.
Import Base64.
Local Open Scope N_scope.

(** *** Checks by enumeration *)

Lemma below_In (n : nat) (x : N) : x < N.of_nat n -> In x (below n).
Proof.
  intros H. unfold below. apply in_map_iff. exists (N.to_nat x). split.
  - apply N2Nat.id.
  - apply in_seq. lia.
Qed.

Lemma all_bytes_In (x : N) : x < 256 -> In x all_bytes.
Proof.
  intros H. replace all_bytes with (below 256) by (vm_compute; reflexivity).
  apply below_In, H.
Qed.

Lemma all_sextets_In (x : N) : x < 64 -> In x all_sextets.
Proof.
  intros H. replace all_sextets with (below 64) by (vm_compute; reflexivity).
  apply below_In, H.
Qed.

Lemma check1 (f : N -> bool) (l : list N) :
  forallb f l = true -> forall x, In x l -> f x = true.
Proof. intros H. apply forallb_forall, H. Qed.

Lemma check2 (f : N -> N -> bool) (l : list N) :
  forallb (fun x => forallb (f x) l) l = true ->
  forall x y, In x l -> In y l -> f x y = true.
Proof.
  intros H x y Hx Hy.
  apply (check1 (f x) l); [ | exact Hy ].
  apply (check1 (fun x => forallb (f x) l) l H x Hx).
Qed.

(** The goal [f x = true] or [f x y = true] holds because [f] is true
    on all bytes, or on all sextets. *)
Ltac bytes_check1 f :=
  apply (check1 f all_bytes);
  [ vm_compute; reflexivity | apply all_bytes_In; assumption ].
Ltac bytes_check2 f :=
  apply (check2 f all_bytes);
  [ vm_compute; reflexivity | apply all_bytes_In; assumption .. ].
Ltac sextets_check1 f :=
  apply (check1 f all_sextets);
  [ vm_compute; reflexivity | apply all_sextets_In; assumption ].
Ltac sextets_check2 f :=
  apply (check2 f all_sextets);
  [ vm_compute; reflexivity | apply all_sextets_In; assumption .. ].

(** *** Sextets of bytes *)

Lemma sextet0_lt b0 : b0 < 256 -> sextet0 b0 < 64.
Proof.
  intros. apply N.ltb_lt. bytes_check1 (fun b0 => sextet0 b0 <? 64).
Qed.

Lemma sextet1_lt b0 b1 : b0 < 256 -> b1 < 256 -> sextet1 b0 b1 < 64.
Proof.
  intros. apply N.ltb_lt.
  bytes_check2 (fun b0 b1 => sextet1 b0 b1 <? 64).
Qed.

Lemma sextet2_lt b1 b2 : b1 < 256 -> b2 < 256 -> sextet2 b1 b2 < 64.
Proof.
  intros. apply N.ltb_lt.
  bytes_check2 (fun b1 b2 => sextet2 b1 b2 <? 64).
Qed.

Lemma sextet3_lt b2 : b2 < 256 -> sextet3 b2 < 64.
Proof.
  intros. apply N.ltb_lt. bytes_check1 (fun b2 => sextet3 b2 <? 64).
Qed.

Lemma octet0_sextets b0 b1 :
  b0 < 256 -> b1 < 256 -> octet0 (sextet0 b0) (sextet1 b0 b1) = b0.
Proof.
  intros. apply N.eqb_eq.
  bytes_check2 (fun b0 b1 => octet0 (sextet0 b0) (sextet1 b0 b1) =? b0).
Qed.

Lemma sextet1_low b0 b1 :
  b0 < 256 -> b1 < 256 -> N.land (sextet1 b0 b1) 15 = N.shiftr b1 4.
Proof.
  intros. apply N.eqb_eq.
  bytes_check2 (fun b0 b1 => N.land (sextet1 b0 b1) 15 =? N.shiftr b1 4).
Qed.

Lemma sextet2_high b1 b2 :
  b1 < 256 -> b2 < 256 ->
  N.shiftr (N.land (sextet2 b1 b2) 60) 2 = N.land b1 15.
Proof.
  intros. apply N.eqb_eq.
  bytes_check2 (fun b1 b2 => N.shiftr (N.land (sextet2 b1 b2) 60) 2 =? N.land b1 15).
Qed.

Lemma nibbles b1 :
  b1 < 256 -> N.lor (N.shiftl (N.shiftr b1 4) 4) (N.land b1 15) = b1.
Proof.
  intros. apply N.eqb_eq.
  bytes_check1
    (fun b1 => N.lor (N.shiftl (N.shiftr b1 4) 4) (N.land b1 15) =? b1).
Qed.

Lemma octet1_sextets b0 b1 b2 :
  b0 < 256 -> b1 < 256 -> b2 < 256 ->
  octet1 (sextet1 b0 b1) (sextet2 b1 b2) = b1.
Proof.
  intros H0 H1 H2. unfold octet1.
  rewrite (sextet1_low b0 b1 H0 H1), (sextet2_high b1 b2 H1 H2).
  apply nibbles, H1.
Qed.

Lemma octet2_sextets b1 b2 :
  b1 < 256 -> b2 < 256 -> octet2 (sextet2 b1 b2) (sextet3 b2) = b2.
Proof.
  intros. apply N.eqb_eq.
  bytes_check2 (fun b1 b2 => octet2 (sextet2 b1 b2) (sextet3 b2) =? b2).
Qed.

Lemma sextet1_pad_bits b0 : b0 < 256 -> N.land (sextet1 b0 0) 15 = 0.
Proof.
  intros. apply N.eqb_eq.
  bytes_check1 (fun b0 => N.land (sextet1 b0 0) 15 =? 0).
Qed.

Lemma sextet2_pad_bits b1 : b1 < 256 -> N.land (sextet2 b1 0) 3 = 0.
Proof.
  intros. apply N.eqb_eq.
  bytes_check1 (fun b1 => N.land (sextet2 b1 0) 3 =? 0).
Qed.

(** *** Bytes of sextets *)

Lemma octet0_lt x y : x < 64 -> y < 64 -> octet0 x y < 256.
Proof.
  intros. apply N.ltb_lt.
  sextets_check2 (fun x y => octet0 x y <? 256).
Qed.

Lemma octet1_lt x y : x < 64 -> y < 64 -> octet1 x y < 256.
Proof.
  intros. apply N.ltb_lt.
  sextets_check2 (fun x y => octet1 x y <? 256).
Qed.

Lemma octet2_lt x y : x < 64 -> y < 64 -> octet2 x y < 256.
Proof.
  intros. apply N.ltb_lt.
  sextets_check2 (fun x y => octet2 x y <? 256).
Qed.

Lemma sextet0_octets x y : x < 64 -> y < 64 -> sextet0 (octet0 x y) = x.
Proof.
  intros. apply N.eqb_eq.
  sextets_check2 (fun x y => sextet0 (octet0 x y) =? x).
Qed.

Lemma octet0_low x y :
  x < 64 -> y < 64 -> N.land (octet0 x y) 3 = N.shiftr (N.land y 48) 4.
Proof.
  intros. apply N.eqb_eq.
  sextets_check2
    (fun x y => N.land (octet0 x y) 3 =? N.shiftr (N.land y 48) 4).
Qed.

Lemma octet1_high y z :
  y < 64 -> z < 64 -> N.shiftr (octet1 y z) 4 = N.land y 15.
Proof.
  intros. apply N.eqb_eq.
  sextets_check2 (fun y z => N.shiftr (octet1 y z) 4 =? N.land y 15).
Qed.

Lemma sextet_2_4 y :
  y < 64 ->
  N.lor (N.shiftl (N.shiftr (N.land y 48) 4) 4) (N.land y 15) = y.
Proof.
  intros. apply N.eqb_eq.
  sextets_check1
    (fun y =>
       N.lor (N.shiftl (N.shiftr (N.land y 48) 4) 4) (N.land y 15) =? y).
Qed.

Lemma sextet1_octets x y z :
  x < 64 -> y < 64 -> z < 64 -> sextet1 (octet0 x y) (octet1 y z) = y.
Proof.
  intros Hx Hy Hz. unfold sextet1.
  rewrite (octet0_low x y Hx Hy), (octet1_high y z Hy Hz).
  apply sextet_2_4, Hy.
Qed.

Lemma octet1_low y z :
  y < 64 -> z < 64 -> N.land (octet1 y z) 15 = N.shiftr (N.land z 60) 2.
Proof.
  intros. apply N.eqb_eq.
  sextets_check2
    (fun y z => N.land (octet1 y z) 15 =? N.shiftr (N.land z 60) 2).
Qed.

Lemma octet2_high z w :
  z < 64 -> w < 64 -> N.shiftr (octet2 z w) 6 = N.land z 3.
Proof.
  intros. apply N.eqb_eq.
  sextets_check2 (fun z w => N.shiftr (octet2 z w) 6 =? N.land z 3).
Qed.

Lemma sextet_4_2 z :
  z < 64 ->
  N.lor (N.shiftl (N.shiftr (N.land z 60) 2) 2) (N.land z 3) = z.
Proof.
  intros. apply N.eqb_eq.
  sextets_check1
    (fun z =>
       N.lor (N.shiftl (N.shiftr (N.land z 60) 2) 2) (N.land z 3) =? z).
Qed.

Lemma sextet2_octets y z w :
  y < 64 -> z < 64 -> w < 64 -> sextet2 (octet1 y z) (octet2 z w) = z.
Proof.
  intros Hy Hz Hw. unfold sextet2.
  rewrite (octet1_low y z Hy Hz), (octet2_high z w Hz Hw).
  apply sextet_4_2, Hz.
Qed.

Lemma sextet3_octets z w : z < 64 -> w < 64 -> sextet3 (octet2 z w) = w.
Proof.
  intros. apply N.eqb_eq.
  sextets_check2 (fun z w => sextet3 (octet2 z w) =? w).
Qed.

Lemma sextet1_octet_pad x y :
  x < 64 -> y < 64 -> N.land y 15 = 0 -> sextet1 (octet0 x y) 0 = y.
Proof.
  intros Hx Hy Hz. apply N.eqb_eq in Hz.
  assert (E : implb (N.land y 15 =? 0) (sextet1 (octet0 x y) 0 =? y) = true)
    by sextets_check2 (fun x y => implb (N.land y 15 =? 0) (sextet1 (octet0 x y) 0 =? y)).
  rewrite Hz in E. apply N.eqb_eq, E.
Qed.

Lemma sextet2_octet_pad y z :
  y < 64 -> z < 64 -> N.land z 3 = 0 -> sextet2 (octet1 y z) 0 = z.
Proof.
  intros Hy Hz Hb. apply N.eqb_eq in Hb.
  assert (E : implb (N.land z 3 =? 0) (sextet2 (octet1 y z) 0 =? z) = true)
    by sextets_check2 (fun y z => implb (N.land z 3 =? 0) (sextet2 (octet1 y z) 0 =? z)).
  rewrite Hb in E. apply N.eqb_eq, E.
Qed.

(** *** The two character tables *)

Lemma option_N_eqb_eq a b : option_N_eqb a b = true -> a = b.
Proof.
  destruct a, b; simpl; intros H; try discriminate; try reflexivity.
  apply N.eqb_eq in H. now subst.
Qed.

Lemma base64_char_spec v :
  v < 64 ->
  unbase64_std (base64_char v) = Some v
  /\ unbase64 (base64_char v) = Some v
  /\ Ascii.eqb (base64_char v) pad = false.
Proof.
  intros H.
  assert (E : char_of_sextet_ok v = true)
    by sextets_check1 char_of_sextet_ok.
  unfold char_of_sextet_ok in E.
  apply andb_true_iff in E as [E E3]. apply andb_true_iff in E as [E1 E2].
  repeat split; try (apply option_N_eqb_eq; assumption).
  now apply negb_true_iff.
Qed.

Lemma sextet_of_char_checked c : sextet_of_char_ok (N_of_ascii c) = true.
Proof.
  pose proof (N_ascii_bounded c) as H.
  bytes_check1 sextet_of_char_ok.
Qed.

Lemma unbase64_lt c v : unbase64 c = Some v -> v < 64.
Proof.
  intros H. pose proof (sextet_of_char_checked c) as E.
  unfold sextet_of_char_ok in E. rewrite ascii_N_embedding in E.
  rewrite H in E. apply andb_true_iff in E as [E _]. now apply N.ltb_lt.
Qed.

Lemma unbase64_std_spec c v :
  unbase64_std c = Some v ->
  base64_char v = c /\ Ascii.eqb c pad = false /\ unbase64 c = Some v.
Proof.
  intros H. pose proof (sextet_of_char_checked c) as E.
  unfold sextet_of_char_ok in E. rewrite ascii_N_embedding in E.
  rewrite H in E. apply andb_true_iff in E as [_ E].
  apply andb_true_iff in E as [E E3]. apply andb_true_iff in E as [E1 E2].
  repeat split.
  - now apply Ascii.eqb_eq.
  - now apply negb_true_iff.
  - now apply option_N_eqb_eq.
Qed.

Lemma unbase64_std_lt c v : unbase64_std c = Some v -> v < 64.
Proof.
  intros H. apply unbase64_std_spec in H as (_ & _ & H).
  eapply unbase64_lt, H.
Qed.


(** *** Decoding what the encoder wrote *)

Lemma sextets_char v r :
  v < 64 -> sextets (base64_char v :: r) = v :: sextets r.
Proof.
  intros H. destruct (base64_char_spec v H) as (_ & Hu & Hp).
  simpl. now rewrite Hp, Hu.
Qed.

Lemma sextets_pad r : sextets (pad :: r) = [].
Proof. reflexivity. Qed.

(** Induction on a list three elements at a time. *)
Lemma list_ind3 (A : Type) (P : list A -> Prop) :
  P [] -> (forall a, P [a]) -> (forall a b, P [a; b]) ->
  (forall a b c l, P l -> P (a :: b :: c :: l)) ->
  forall l, P l.
Proof.
  intros H0 H1 H2 H3.
  assert (H : forall l, P l /\ (forall a, P (a :: l))
                        /\ (forall a b, P (a :: b :: l))).
  { induction l as [ | x l (IH0 & IH1 & IH2) ].
    - repeat split; auto.
    - repeat split; auto. }
  intros l. apply H.
Qed.

Lemma decode_encode (buf : Buffer) :
  Forall is_byte buf -> decode (encode buf) = buf.
Proof.
  unfold decode, is_byte.
  induction buf as [ | b0 | b0 b1 | b0 b1 b2 rest IH ] using list_ind3;
    intros Hb.
  - reflexivity.
  - inversion_clear Hb as [ | ? ? H0 _ ].
    assert (Hz : 0 < 256) by reflexivity.
    cbn [encode].
    rewrite !sextets_char, sextets_pad
      by auto using sextet0_lt, sextet1_lt.
    cbn [octets]. now rewrite octet0_sextets.
  - inversion_clear Hb as [ | ? ? H0 Hb' ].
    inversion_clear Hb' as [ | ? ? H1 _ ].
    assert (Hz : 0 < 256) by reflexivity.
    cbn [encode].
    rewrite !sextets_char, sextets_pad
      by auto using sextet0_lt, sextet1_lt, sextet2_lt.
    cbn [octets]. now rewrite octet0_sextets, octet1_sextets.
  - inversion_clear Hb as [ | ? ? H0 Hb' ].
    inversion_clear Hb' as [ | ? ? H1 Hb ].
    inversion_clear Hb as [ | ? ? H2 Hrest ].
    cbn [encode].
    rewrite !sextets_char
      by auto using sextet0_lt, sextet1_lt, sextet2_lt, sextet3_lt.
    cbn [octets].
    rewrite octet0_sextets, octet1_sextets, octet2_sextets by assumption.
    now rewrite IH.
Qed.

Lemma sextets_lt s : Forall (fun v => v < 64) (sextets s).
Proof.
  induction s as [ | c r IH ]; simpl.
  - constructor.
  - destruct (Ascii.eqb c pad); [ constructor | ].
    destruct (unbase64 c) as [ v | ] eqn:E; [ | exact IH ].
    constructor; [ eapply unbase64_lt, E | exact IH ].
Qed.

Lemma octets_bytes v :
  Forall (fun x => x < 64) v -> Forall is_byte (octets v).
Proof.
  unfold is_byte.
  assert (H : forall n v, (List.length v <= n)%nat ->
              Forall (fun x => x < 64) v ->
              Forall (fun b => b < 256) (octets v)).
  { induction n as [ | n IH ]; intros l Hl Hs.
    - destruct l; [ constructor | simpl in Hl; lia ].
    - destruct l as [ | s0 [ | s1 [ | s2 [ | s3 rest ] ] ] ];
        cbn [octets]; try constructor;
        repeat match goal with
               | H : Forall _ (_ :: _) |- _ => inversion_clear H
               end;
        auto using octet0_lt, octet1_lt, octet2_lt.
      repeat constructor; auto using octet0_lt, octet1_lt, octet2_lt.
      apply IH; [ simpl in Hl; lia | assumption ]. }
  intros Hv. apply (H (List.length v) v (le_n _) Hv).
Qed.

Lemma decode_bytes s : Forall is_byte (decode s).
Proof. apply octets_bytes, sextets_lt. Qed.

Lemma normalize_chars (s : string) :
  list_ascii_of_string (normalize s)
  = encode (decode (list_ascii_of_string s)).
Proof.
  unfold normalize, toString, from.
  apply list_ascii_of_string_of_list_ascii.
Qed.

Lemma normalize_idempotent (s : string) :
  normalize (normalize s) = normalize s.
Proof.
  unfold normalize at 1. unfold from. rewrite normalize_chars.
  rewrite decode_encode by apply decode_bytes.
  reflexivity.
Qed.

(** *** Canonical strings are the encoder's outputs *)

Lemma encode_canonical (buf : Buffer) :
  Forall is_byte buf -> canonical_chars (encode buf) = true.
Proof.
  unfold is_byte.
  induction buf as [ | b0 | b0 b1 | b0 b1 b2 rest IH ] using list_ind3;
    intros Hb.
  - reflexivity.
  - inversion_clear Hb as [ | ? ? H0 _ ].
    assert (Hz : 0 < 256) by reflexivity.
    destruct (base64_char_spec _ (sextet0_lt b0 H0)) as (E0 & _ & _).
    destruct (base64_char_spec _ (sextet1_lt b0 0 H0 Hz)) as (E1 & _ & _).
    cbn [encode canonical_chars]. rewrite E0, E1.
    rewrite (sextet1_pad_bits b0 H0). reflexivity.
  - inversion_clear Hb as [ | ? ? H0 Hb' ].
    inversion_clear Hb' as [ | ? ? H1 _ ].
    assert (Hz : 0 < 256) by reflexivity.
    destruct (base64_char_spec _ (sextet0_lt b0 H0)) as (E0 & _ & _).
    destruct (base64_char_spec _ (sextet1_lt b0 b1 H0 H1)) as (E1 & _ & _).
    destruct (base64_char_spec _ (sextet2_lt b1 0 H1 Hz)) as (E2 & _ & P2).
    cbn [encode canonical_chars]. rewrite E0, E1, P2, E2.
    rewrite (sextet2_pad_bits b1 H1). reflexivity.
  - inversion_clear Hb as [ | ? ? H0 Hb' ].
    inversion_clear Hb' as [ | ? ? H1 Hb ].
    inversion_clear Hb as [ | ? ? H2 Hrest ].
    destruct (base64_char_spec _ (sextet0_lt b0 H0)) as (E0 & _ & _).
    destruct (base64_char_spec _ (sextet1_lt b0 b1 H0 H1)) as (E1 & _ & _).
    destruct (base64_char_spec _ (sextet2_lt b1 b2 H1 H2)) as (E2 & _ & P2).
    destruct (base64_char_spec _ (sextet3_lt b2 H2)) as (E3 & _ & P3).
    cbn [encode canonical_chars]. rewrite E0, E1, P2, E2, P3, E3.
    apply IH, Hrest.
Qed.

Lemma sextets_std c v r :
  unbase64_std c = Some v -> sextets (c :: r) = v :: sextets r.
Proof.
  intros H. apply unbase64_std_spec in H as (_ & Hp & Hu).
  simpl. now rewrite Hp, Hu.
Qed.

Lemma canonical_fixed (s : list ascii) :
  canonical_chars s = true -> encode (decode s) = s.
Proof.
  unfold decode.
  assert (H : forall n s, (List.length s <= n)%nat ->
              canonical_chars s = true -> encode (octets (sextets s)) = s).
  { induction n as [ | n IH ]; intros l Hl Hc.
    - destruct l; [ reflexivity | simpl in Hl; lia ].
    - destruct l as [ | a [ | b [ | c [ | d r ] ] ] ];
        try reflexivity; try discriminate Hc.
      cbn [canonical_chars] in Hc.
      destruct (unbase64_std a) as [ x | ] eqn:Ea; [ | discriminate ].
      destruct (unbase64_std b) as [ y | ] eqn:Eb; [ | discriminate ].
      pose proof (unbase64_std_lt _ _ Ea) as Hx.
      pose proof (unbase64_std_lt _ _ Eb) as Hy.
      destruct (unbase64_std_spec _ _ Ea) as (Ca & _ & _).
      destruct (unbase64_std_spec _ _ Eb) as (Cb & _ & _).
      rewrite (sextets_std a x _ Ea), (sextets_std b y _ Eb).
      destruct (Ascii.eqb c pad) eqn:Pc.
      + apply Ascii.eqb_eq in Pc. subst c.
        apply andb_true_iff in Hc as [Hc Hr].
        apply andb_true_iff in Hc as [Pd Hbits].
        apply Ascii.eqb_eq in Pd. subst d.
        apply N.eqb_eq in Hbits.
        destruct r; [ | discriminate ].
        rewrite sextets_pad. cbn [octets encode].
        rewrite sextet0_octets, sextet1_octet_pad by assumption.
        now rewrite Ca, Cb.
      + destruct (unbase64_std c) as [ z | ] eqn:Ec; [ | discriminate ].
        pose proof (unbase64_std_lt _ _ Ec) as Hz.
        destruct (unbase64_std_spec _ _ Ec) as (Cc & _ & _).
        rewrite (sextets_std c z _ Ec).
        destruct (Ascii.eqb d pad) eqn:Pd.
        * apply Ascii.eqb_eq in Pd. subst d.
          apply andb_true_iff in Hc as [Hbits Hr].
          apply N.eqb_eq in Hbits.
          destruct r; [ | discriminate ].
          rewrite sextets_pad. cbn [octets encode].
          rewrite sextet0_octets, sextet1_octets, sextet2_octet_pad
            by auto using octet1_lt.
          now rewrite Ca, Cb, Cc.
        * destruct (unbase64_std d) as [ w | ] eqn:Ed; [ | discriminate ].
          pose proof (unbase64_std_lt _ _ Ed) as Hw.
          destruct (unbase64_std_spec _ _ Ed) as (Cd & _ & _).
          rewrite (sextets_std d w _ Ed).
          cbn [octets encode].
          rewrite sextet0_octets, sextet1_octets, sextet2_octets,
            sextet3_octets by assumption.
          rewrite Ca, Cb, Cc, Cd.
          rewrite IH; [ reflexivity | simpl in Hl; lia | exact Hc ]. }
  intros Hc. apply (H (List.length s) s (le_n _) Hc).
Qed.

Lemma normalize_fixed_iff (s : string) :
  normalize s = s <-> canonical s = true.
Proof.
  unfold canonical. split; intros H.
  - rewrite <- H, normalize_chars.
    apply encode_canonical, decode_bytes.
  - rewrite <- (string_of_list_ascii_of_string s) at 2.
    unfold normalize, toString, from. f_equal.
    apply canonical_fixed, H.
Qed.

(** Decoding skips what is not in the alphabet, reads the URL-safe
    alphabet and stops at the padding; encoding pads. *)
Example from_QUJD : from "QUJD" = [65; 66; 67].
Proof. reflexivity. Qed.

Example normalize_pads : normalize "QQ" = "QQ=="%string.
Proof. reflexivity. Qed.

Example normalize_clears_unused_bits : normalize "QR==" = "QQ=="%string.
Proof. reflexivity. Qed.

Example normalize_url_safe : normalize "-_-_" = "+/+/"%string.
Proof. reflexivity. Qed.

Example normalize_skips_blanks : normalize "QU JD" = "QUJD"%string.
Proof. reflexivity. Qed.

Example normalize_stops_at_padding : normalize "QQ==QUJD" = "QQ=="%string.
Proof. reflexivity. Qed.

End Base64Facts.

(* ================================================================= *)
(** * Properties of the relay session *)

(** ** One step, event by event *)

Ltac unfold_handlers :=
  cbv [step exec handler arrive openAiWs_on_message connection_on_message
       connection_on_close openAiWs_on_close openAiWs_on_error
       openAiWs_on_open initializeSession sendInitialConversationItem
       handleSpeechStartedEvent sendMark close_socket
       bind ret when read assign emit readyState_of].

Ltac run_handlers :=
  unfold_handlers;
  cbn -[JS.truthy JS.not_num String.eqb Base64.normalize Z.sub Z.of_N].

Lemma bind_ret_l (A B : Type) (a : A) (k : A -> M B) (w : world) :
  bind (ret a) k w = k a w.
Proof. unfold bind, ret. destruct (k a w) as [[b w2] o2]. reflexivity. Qed.

Lemma speech_started_not_audio_delta r :
  is_speech_started r = true ->
  String.eqb (type r) "response.audio.delta" = false.
Proof.
  unfold is_speech_started. intros H. apply String.eqb_eq in H.
  now rewrite H.
Qed.

Lemma audio_delta_not_speech_started r :
  String.eqb (type r) "response.audio.delta" = true ->
  is_speech_started r = false.
Proof.
  unfold is_speech_started. intros H. apply String.eqb_eq in H.
  now rewrite H.
Qed.

Lemma speech_started_step w r :
  is_speech_started r = true ->
  step w (ev_openAiWs_message (Some r)) = exec handleSpeechStartedEvent w.
Proof.
  intros H. unfold step, handler, arrive, openAiWs_on_message.
  rewrite (speech_started_not_audio_delta r H).
  unfold is_speech_started in H. rewrite H.
  cbn [andb when]. unfold exec. now rewrite bind_ret_l.
Qed.

Lemma handleSpeechStartedEvent_guarded w t :
  responseStartTimestampTwilio (vars w) = Some t ->
  markQueue (vars w) <> [] ->
  exec handleSpeechStartedEvent w
  = (interrupted w,
     truncation (vars w) t
     ++ [send connection (clear_event (streamSid (vars w)))]).
Proof.
  destruct w as [[sid lat item q st] ra rc]. cbn. intros -> Hq.
  destruct q as [ | m q ]; [ congruence | ].
  unfold truncation, interrupted. run_handlers.
  destruct (JS.truthy item); reflexivity.
Qed.

Lemma handleSpeechStartedEvent_idle w :
  markQueue (vars w) = [] \/ responseStartTimestampTwilio (vars w) = None ->
  exec handleSpeechStartedEvent w = (w, []).
Proof.
  destruct w as [[sid lat item q st] ra rc]. cbn. intros [ -> | -> ].
  - reflexivity.
  - run_handlers. destruct q; reflexivity.
Qed.

Lemma audio_delta_step w r d :
  is_audio_delta r = true ->
  delta r = Some d ->
  step w (ev_openAiWs_message (Some r))
  = (mkWorld (relayed (vars w) r) (openAiWs_readyState w)
       (connection_readyState w),
     relay_effects (vars w) d).
Proof.
  intros H Hd. assert (H' := H). unfold is_audio_delta in H'.
  apply andb_true_iff in H' as [Ht _].
  pose proof (audio_delta_not_speech_started r Ht) as Hs.
  unfold is_speech_started in Hs.
  destruct w as [[sid lat item q st] ra rc].
  unfold step, handler, arrive, openAiWs_on_message.
  rewrite Hs, Hd. unfold is_audio_delta in H. rewrite Hd in H. rewrite H.
  unfold relayed, relay_effects. run_handlers.
  destruct (JS.not_num st), (JS.truthy (item_id r)), (JS.truthy sid);
    reflexivity.
Qed.

Lemma audio_delta_has_delta r :
  is_audio_delta r = true -> exists d, delta r = Some d.
Proof.
  unfold is_audio_delta. intros H. apply andb_true_iff in H as [_ H].
  destruct (delta r) as [ d | ]; [ now exists d | discriminate ].
Qed.

Lemma other_message_step w r :
  is_audio_delta r = false -> is_speech_started r = false ->
  step w (ev_openAiWs_message (Some r)) = (w, []).
Proof.
  unfold is_audio_delta, is_speech_started. intros Hd Hs.
  unfold step, handler, arrive, openAiWs_on_message.
  rewrite Hs, Hd. reflexivity.
Qed.

Lemma step_spec_holds w e : step_spec w e (step w e).
Proof.
  destruct e as [ | | [ r | ] | | | [ [ ts p | sid | | name ] | ] | ].
  - destruct w as [s ra rc]. apply (Opened (mkWorld s ra rc)).
  - destruct w as [s ra rc]. apply (Initialized (mkWorld s ra rc)).
  - destruct (is_audio_delta r) eqn:Hd.
    + destruct (audio_delta_has_delta r Hd) as [d E].
      rewrite (audio_delta_step w r d Hd E). now apply Relay.
    + destruct (is_speech_started r) eqn:Hs.
      * rewrite (speech_started_step w r Hs).
        destruct (responseStartTimestampTwilio (vars w)) as [ t | ] eqn:Et.
        -- destruct (markQueue (vars w)) as [ | m q ] eqn:Eq.
           ++ rewrite handleSpeechStartedEvent_idle by auto.
              apply Idle; auto.
           ++ rewrite (handleSpeechStartedEvent_guarded w t Et)
                by (rewrite Eq; discriminate).
              apply Interrupt; [ assumption .. | rewrite Eq; discriminate ].
        -- rewrite handleSpeechStartedEvent_idle by auto.
           apply Idle; auto.
      * rewrite (other_message_step w r Hd Hs). now apply Logged.
  - apply Unparsed_openAi.
  - destruct w as [s ra rc]. apply (OpenAi_closed (mkWorld s ra rc)).
  - apply OpenAi_failed.
  - destruct w as [[sid lat item q st] ra rc].
    pose proof (Caller_audio
                  (mkWorld (mkSession sid lat item q st) ra rc) ts p) as H.
    cbn in H. run_handlers. destruct ra; exact H.
  - destruct w as [[sid0 lat item q st] ra rc].
    apply (Started (mkWorld (mkSession sid0 lat item q st) ra rc)).
  - destruct w as [[sid0 lat item q st] ra rc].
    pose proof (Acknowledged
                  (mkWorld (mkSession sid0 lat item q st) ra rc)) as H.
    destruct q; exact H.
  - apply Ignored.
  - apply Unparsed_twilio.
  - destruct w as [s ra rc].
    pose proof (Hung_up (mkWorld s ra rc)) as H.
    destruct ra; exact H.
Qed.

(** ** Runs *)

Lemma run_snoc w es e :
  run w (es ++ [e])
  = (fst (step (fst (run w es)) e),
     snd (run w es) ++ snd (step (fst (run w es)) e)).
Proof.
  revert w. induction es as [ | e0 es IH ]; intros w.
  - cbn. destruct (step w e) as [w1 o1]. cbn. now rewrite app_nil_r.
  - cbn [app run]. destruct (step w e0) as [w1 o1].
    rewrite IH. destruct (run w1 es) as [w2 o2]. cbn.
    now rewrite app_assoc.
Qed.

Lemma state_after_snoc es e :
  state_after (es ++ [e]) = fst (step (state_after es) e).
Proof. unfold state_after. now rewrite run_snoc. Qed.

Lemma effects_of_snoc es e :
  effects_of (es ++ [e]) = effects_of es ++ snd (step (state_after es) e).
Proof. unfold effects_of, state_after. now rewrite run_snoc. Qed.

(** A property of the initial state that every step preserves holds in
    every reachable state; if every step under it only issues effects
    satisfying [Q], so does every run. *)
Lemma run_invariant (P : world -> Prop) (Q : effect -> Prop) :
  P initial_world ->
  (forall w e, P w -> P (fst (step w e)) /\ Forall Q (snd (step w e))) ->
  forall es, P (state_after es) /\ Forall Q (effects_of es).
Proof.
  intros H0 Hstep es. induction es as [ | e es [IHs IHe] ] using rev_ind.
  - split; [ exact H0 | constructor ].
  - rewrite state_after_snoc, effects_of_snoc.
    destruct (Hstep (state_after es) e IHs) as [Hs He].
    split; [ exact Hs | ]. apply Forall_app. now split.
Qed.

Lemma reachable_invariant (P : world -> Prop) :
  P initial_world ->
  (forall w e, P w -> P (fst (step w e))) ->
  forall w, reachable w -> P w.
Proof.
  intros H0 Hstep w [es <-].
  apply (run_invariant P (fun _ => True) H0).
  intros w' e Hw. split; [ now apply Hstep | ].
  apply Forall_forall. trivial.
Qed.

(** ** Invariants *)

Lemma truthy_not_null v : JS.truthy v = true -> v <> None.
Proof. destruct v; [ discriminate | discriminate ]. Qed.

(** [lastAssistantItem] is only ever assigned a truthy [item_id]. *)
Lemma item_truthy_or_null_step w e :
  item_truthy_or_null w -> item_truthy_or_null (fst (step w e)).
Proof.
  unfold item_truthy_or_null. intros H.
  destruct (step_spec_holds w e); cbn; auto.
  destruct (JS.truthy (item_id r)) eqn:E; auto.
Qed.

Lemma item_truthy_or_null_reachable w :
  reachable w -> item_truthy_or_null w.
Proof.
  apply reachable_invariant.
  - left. reflexivity.
  - apply item_truthy_or_null_step.
Qed.

(** A mark is queued only under a truthy [streamSid], and a start event
    never unsets it. *)
Lemma queued_implies_streamSid_step w e :
  start_has_streamSid e = true ->
  queued_implies_streamSid w ->
  queued_implies_streamSid (fst (step w e))
  /\ Forall carries_streamSid (snd (step w e)).
Proof.
  unfold queued_implies_streamSid. intros He H.
  destruct (step_spec_holds w e); cbn;
    try (split; [ exact H | repeat constructor ]; fail).
  - (* an audio delta is relayed *)
    unfold relay_effects.
    destruct (JS.truthy (streamSid (vars w))) eqn:E.
    + pose proof (truthy_not_null _ E) as Hsid.
      split; [ auto | repeat constructor; exact Hsid ].
    + split; [ exact H | repeat constructor ].
  - (* an interruption *)
    split; [ congruence | ].
    apply Forall_app. split.
    + unfold truncation. destruct (JS.truthy _); repeat constructor.
    + repeat constructor. cbn. auto.
  - (* caller audio *)
    split; [ exact H | ].
    destruct (readyState_eqb _ _); repeat constructor.
  - (* start, with a stream identifier *)
    split; [ | constructor ].
    intros _. destruct sid; [ discriminate | discriminate He ].
  - (* mark acknowledged *)
    split; [ | constructor ].
    intros Hq. apply H.
    destruct (markQueue (vars w)); [ exact Hq | discriminate ].
  - (* the caller hangs up *)
    split; [ exact H | ].
    destruct (readyState_eqb _ _); repeat constructor.
Qed.

Lemma queued_implies_streamSid_after es :
  forallb start_has_streamSid es = true ->
  queued_implies_streamSid (state_after es)
  /\ Forall carries_streamSid (effects_of es).
Proof.
  induction es as [ | e es IH ] using rev_ind; intros H.
  - split; [ | constructor ]. intros Hq. now contradiction Hq.
  - rewrite forallb_app in H. apply andb_true_iff in H as [Hes He].
    cbn in He. rewrite andb_true_r in He.
    destruct (IH Hes) as [Hs Ho].
    rewrite state_after_snoc, effects_of_snoc.
    destruct (queued_implies_streamSid_step _ e He Hs) as [Hs' Ho'].
    split; [ exact Hs' | ]. apply Forall_app. now split.
Qed.

(** A mark is only sent under the guard of [sendMark]. *)
Lemma mark_names_stream_step w e :
  Forall mark_names_stream (snd (step w e)).
Proof.
  destruct (step_spec_holds w e); cbn [snd]; repeat constructor.
  - unfold relay_effects.
    destruct (JS.truthy (streamSid (vars w))) eqn:E; repeat constructor.
    exact E.
  - apply Forall_app. split; [ | repeat constructor ].
    unfold truncation. destruct (JS.truthy _); repeat constructor.
  - destruct (readyState_eqb _ _); repeat constructor.
  - destruct (readyState_eqb _ _); repeat constructor.
Qed.

Lemma mark_names_stream_after es :
  Forall mark_names_stream (effects_of es).
Proof.
  apply (run_invariant (fun _ => True) mark_names_stream I).
  intros w e _. split; [ exact I | apply mark_names_stream_step ].
Qed.

(** Until the first start event the stream identifier is unset and the
    queue is empty, and neither a mark nor a clear event is sent. *)
Lemma before_start_step w e :
  is_start e = false ->
  before_start w ->
  before_start (fst (step w e))
  /\ Forall (fun x => is_mark x = false /\ is_clear x = false)
       (snd (step w e)).
Proof.
  unfold before_start. intros He [Hsid Hq].
  destruct (step_spec_holds w e); cbn; try discriminate He;
    try (split; [ auto | repeat constructor ]; fail).
  - unfold relay_effects. rewrite Hsid. cbn.
    split; [ auto | repeat constructor ].
  - contradiction.
  - split; [ auto | ]. destruct (readyState_eqb _ _); repeat constructor.
  - rewrite Hq. auto.
  - split; [ auto | ]. destruct (readyState_eqb _ _); repeat constructor.
Qed.

Lemma no_mark_or_clear_before_start es :
  forallb (fun e => negb (is_start e)) es = true ->
  before_start (state_after es)
  /\ Forall (fun x => is_mark x = false /\ is_clear x = false)
       (effects_of es).
Proof.
  induction es as [ | e es IH ] using rev_ind; intros H.
  - repeat split. constructor.
  - rewrite forallb_app in H. apply andb_true_iff in H as [Hes He].
    cbn in He. rewrite andb_true_r in He. apply negb_true_iff in He.
    destruct (IH Hes) as [Hs Ho].
    rewrite state_after_snoc, effects_of_snoc.
    destruct (before_start_step _ e He Hs) as [Hs' Ho'].
    split; [ exact Hs' | ]. apply Forall_app. now split.
Qed.

(** ** Counting effects *)

Lemma count_app p o1 o2 : count p (o1 ++ o2) = (count p o1 + count p o2)%nat.
Proof. unfold count. now rewrite filter_app, length_app. Qed.

Lemma count_truncation s t :
  count is_truncate (truncation s t)
  = if JS.truthy (lastAssistantItem s) then 1%nat else 0%nat.
Proof.
  unfold truncation. destruct (JS.truthy _); reflexivity.
Qed.

Lemma count_clear_truncation s t : count is_clear (truncation s t) = 0%nat.
Proof.
  unfold truncation. destruct (JS.truthy _); reflexivity.
Qed.

(** ** Interruption *)

(** C2 -- When the guard of the interruption holds (the mark queue is not
    empty and the response start timestamp is set), a speech-started
    message empties [markQueue], unsets [lastAssistantItem] and
    [responseStartTimestampTwilio], sends exactly one truncate
    instruction on the OpenAI socket if [lastAssistantItem] was set (the
    test of line 136) and none otherwise, and exactly one clear event on
    the Twilio socket.  In a reachable state [lastAssistantItem] is set
    exactly when it is not null. *)
Theorem C2_interruption_resets_and_notifies (w : world) (r : response) :
  is_speech_started r = true ->
  interruption_guard (vars w) ->
  let w' := fst (step w (ev_openAiWs_message (Some r))) in
  let o := snd (step w (ev_openAiWs_message (Some r))) in
  markQueue (vars w') = []
  /\ lastAssistantItem (vars w') = None
  /\ responseStartTimestampTwilio (vars w') = None
  /\ count is_truncate o
     = (if JS.truthy (lastAssistantItem (vars w)) then 1%nat else 0%nat)
  /\ count is_clear o = 1%nat
  /\ (reachable w ->
      count is_truncate o
      = match lastAssistantItem (vars w) with
        | Some _ => 1%nat
        | None => 0%nat
        end).
Proof.
  intros Hr [Hq Hst] w' o. subst w' o.
  destruct (responseStartTimestampTwilio (vars w)) as [ t | ] eqn:Et;
    [ clear Hst | congruence ].
  rewrite (speech_started_step w r Hr).
  rewrite (handleSpeechStartedEvent_guarded w t Et Hq). cbn [fst snd].
  rewrite !count_app, count_truncation, count_clear_truncation.
  repeat split; try reflexivity.
  - cbn. lia.
  - intros Hw. cbn.
    destruct (item_truthy_or_null_reachable w Hw) as [ E | E ]; rewrite E.
    + reflexivity.
    + destruct (lastAssistantItem (vars w)); [ reflexivity | discriminate ].
Qed.

Lemma C2_interruption_witness :
  markQueue (vars (fst (step playing speech_started))) = []
  /\ count is_truncate (snd (step playing speech_started)) = 1%nat
  /\ count is_clear (snd (step playing speech_started)) = 1%nat.
Proof.
  assert (Hr : is_speech_started
                 (mkResponse "input_audio_buffer.speech_started" None None)
               = true) by reflexivity.
  assert (Hg : interruption_guard (vars playing))
    by (split; vm_compute; discriminate).
  destruct (C2_interruption_resets_and_notifies playing _ Hr Hg)
    as (H1 & _ & _ & H2 & H3 & _).
  split; [ exact H1 | split; [ exact H2 | exact H3 ] ].
Defined.

(** C3 -- When [markQueue] is empty or [responseStartTimestampTwilio] is
    unset, a speech-started message changes nothing: the five variables
    (and the sockets) stay as they are and nothing is sent, so no
    truncate and no clear on either socket. *)
Theorem C3_speech_started_without_playback (w : world) (r : response) :
  is_speech_started r = true ->
  markQueue (vars w) = [] \/ responseStartTimestampTwilio (vars w) = None ->
  step w (ev_openAiWs_message (Some r)) = (w, []).
Proof.
  intros Hr Hg. rewrite (speech_started_step w r Hr).
  apply handleSpeechStartedEvent_idle, Hg.
Qed.

Lemma C3_speech_started_witness :
  step listening speech_started = (listening, []).
Proof.
  apply (C3_speech_started_without_playback listening
           (mkResponse "input_audio_buffer.speech_started" None None)).
  - reflexivity.
  - left. reflexivity.
Defined.

(** ** Elapsed time of an interrupted utterance *)

(** A truncate instruction is only issued by an interruption, with the
    elapsed time computed at line 133. *)
Lemma truncate_emitted w e tr id idx ms :
  In (send tr (conversation_item_truncate id idx ms)) (snd (step w e)) ->
  exists t,
    responseStartTimestampTwilio (vars w) = Some t
    /\ markQueue (vars w) <> []
    /\ lastAssistantItem (vars w) = id
    /\ tr = openAiWs /\ idx = 0%Z
    /\ ms = (Z.of_N (latestMediaTimestamp (vars w)) - Z.of_N t)%Z.
Proof.
  destruct (step_spec_holds w e); cbn [snd]; intros Hin;
    try (cbn in Hin; intuition discriminate).
  - (* an audio delta is relayed *)
    unfold relay_effects in Hin.
    destruct (JS.truthy (streamSid (vars w)));
      cbn in Hin; intuition discriminate.
  - (* an interruption *)
    apply in_app_or in Hin as [ Hin | Hin ];
      [ | cbn in Hin; intuition discriminate ].
    unfold truncation in Hin.
    destruct (JS.truthy _); [ | contradiction ].
    destruct Hin as [ Hin | [] ]. injection Hin as <- <- <- <-.
    exists t. auto 7.
  - (* caller audio *)
    destruct (readyState_eqb _ _); cbn in Hin; intuition discriminate.
  - (* the caller hangs up *)
    destruct (readyState_eqb _ _); cbn in Hin; intuition discriminate.
Qed.

Lemma media_timestamps_app es1 es2 :
  media_timestamps (es1 ++ es2) = media_timestamps es1 ++ media_timestamps es2.
Proof.
  induction es1 as [ | e es1 IH ]; [ reflexivity | ].
  destruct e as [ | | | | | [ [ ts p | sid | | name ] | ] | ];
    cbn; now rewrite IH.
Qed.

Lemma nondecreasing_snoc l x :
  nondecreasing (l ++ [x]) = true ->
  nondecreasing l = true /\ (last l 0 <= x)%N.
Proof.
  induction l as [ | a l IH ]; intros H.
  - split; [ reflexivity | apply N.le_0_l ].
  - destruct l as [ | b l ].
    + cbn in H. apply andb_true_iff in H as [H _].
      split; [ reflexivity | now apply N.leb_le ].
    + change (((a <=? b)%N && nondecreasing ((b :: l) ++ [x])) = true) in H.
      apply andb_true_iff in H as [Hab H].
      destruct (IH H) as [Hl Hx]. split.
      * change (((a <=? b)%N && nondecreasing (b :: l)) = true).
        now rewrite Hab, Hl.
      * exact Hx.
Qed.

(** With non-decreasing caller timestamps, the start of the response is
    never ahead of the latest caller timestamp. *)
Lemma stamp_not_ahead_after es :
  nondecreasing (media_timestamps es) = true ->
  (latestMediaTimestamp (vars (state_after es))
   <= last (media_timestamps es) 0)%N
  /\ stamp_not_ahead (state_after es).
Proof.
  unfold stamp_not_ahead.
  induction es as [ | e es IH ] using rev_ind; intros Hmono.
  - cbn. split; [ lia | discriminate ].
  - rewrite media_timestamps_app in Hmono |- *.
    rewrite state_after_snoc.
    assert (Hpre : nondecreasing (media_timestamps es) = true
                   /\ (is_caller_audio e = false ->
                       media_timestamps [e] = [])).
    { destruct e as [ | | | | | [ [ ts p | sid | | name ] | ] | ];
        cbn [media_timestamps] in *; rewrite ?app_nil_r in Hmono;
        try (split; [ exact Hmono | reflexivity ]).
      split; [ apply (nondecreasing_snoc _ _ Hmono) | discriminate ]. }
    destruct Hpre as [Hes Hnil]. destruct (IH Hes) as [Hlast Hst].
    destruct (step_spec_holds (state_after es) e); cbn;
      rewrite ?Hnil, ?app_nil_r by reflexivity;
      try (split; [ exact Hlast | exact Hst ]; fail).
    + (* an audio delta is relayed *)
      split; [ exact Hlast | ]. intros t0.
      destruct (JS.not_num _); [ | apply Hst ].
      intros [= <-]. lia.
    + (* an interruption *)
      split; [ exact Hlast | discriminate ].
    + (* caller audio *)
      cbn [media_timestamps] in Hmono |- *. rewrite last_last.
      split; [ lia | ]. intros t0 Ht0.
      apply nondecreasing_snoc in Hmono as [_ Hle].
      specialize (Hst t0 Ht0). lia.
    + (* start *)
      split; [ apply N.le_0_l | discriminate ].
Qed.

(** C4 -- Whenever an interruption is processed (a step of a session
    issues a truncate instruction), its [audio_end_ms] is
    [latestMediaTimestamp] minus [responseStartTimestampTwilio] as they
    stand when the event is processed; and if the timestamps of the
    caller-audio events received so far (offsets from the start of the
    stream, natural numbers) are non-decreasing, the value is not
    negative. *)
Theorem C4_audio_end_ms_is_elapsed_time
  (pre : list event) (e : event) (tr : transport) (id : option string)
  (idx ms : Z) :
  In (send tr (conversation_item_truncate id idx ms))
    (snd (step (state_after pre) e)) ->
  (exists t,
      responseStartTimestampTwilio (vars (state_after pre)) = Some t
      /\ ms = (Z.of_N (latestMediaTimestamp (vars (state_after pre)))
               - Z.of_N t)%Z)
  /\ (nondecreasing (media_timestamps pre) = true -> (0 <= ms)%Z).
Proof.
  intros Hin.
  destruct (truncate_emitted _ _ _ _ _ _ Hin) as (t & Et & _ & _ & _ & _ & ->).
  split.
  - exists t. auto.
  - intros Hmono.
    destruct (stamp_not_ahead_after pre Hmono) as [_ Hst].
    specialize (Hst t Et). lia.
Qed.

Lemma C4_audio_end_ms_witness :
  (exists t,
      responseStartTimestampTwilio (vars (state_after interrupted_call))
      = Some t
      /\ 150%Z
         = (Z.of_N (latestMediaTimestamp (vars (state_after interrupted_call)))
            - Z.of_N t)%Z)
  /\ (0 <= 150)%Z.
Proof.
  assert (Hin : In (send openAiWs (conversation_item_truncate (Some "I1") 0 150))
                  (snd (step (state_after interrupted_call) speech_started)))
    by (vm_compute; left; reflexivity).
  destruct (C4_audio_end_ms_is_elapsed_time interrupted_call speech_started
              openAiWs (Some "I1") 0%Z 150%Z Hin) as [H1 H2].
  split; [ exact H1 | apply H2; reflexivity ].
Defined.

(** Without the assumption the elapsed time can be negative. *)
Example elapsed_time_negative_when_timestamps_decrease :
  snd (step (state_after [twilio (start (Some "S1")); twilio (media 100 "AAAA");
                          audio_delta "QUJD" (Some "I1");
                          twilio (media 40 "AAAA")])
         speech_started)
  = [send openAiWs (conversation_item_truncate (Some "I1") 0 (-60));
     send connection (clear_event (Some "S1"))].
Proof. vm_compute. reflexivity. Qed.

(** ** Before the stream has started *)

(** C1 -- An audio delta that arrives before any start event is relayed
    all the same: a media event with a null [streamSid] is sent on the
    Twilio socket.  The send of line 194 has no guard on [streamSid],
    unlike the mark of [sendMark] (line 161). *)
Theorem C1_media_sent_before_start :
  streamSid (vars initial_world) = None
  /\ effects_of [audio_delta "QUJD" (Some "I1")]
     = [send connection (media_event None "QUJD")].
Proof. split; vm_compute; reflexivity. Qed.

(** ** Closing *)

(** When the caller hangs up while the OpenAI socket is open, that socket
    is closed. *)
Lemma connection_close_closes_openAiWs w :
  openAiWs_readyState w = OPEN ->
  snd (step w ev_connection_close) = [close openAiWs].
Proof.
  destruct w as [s ra rc]. cbn. intros ->. reflexivity.
Qed.

Lemma openAiWs_close_closes_nothing w :
  step w ev_openAiWs_close
  = (mkWorld (vars w) CLOSED (connection_readyState w), []).
Proof. destruct w as [s ra rc]. reflexivity. Qed.

(** C5 -- When the OpenAI socket closes while the Twilio socket is open,
    the handler of line 263 only logs: no [close] is issued and the
    Twilio socket stays open. *)
Theorem C5_openAiWs_close_leaves_connection_open :
  connection_readyState listening_connected = OPEN
  /\ step listening_connected ev_openAiWs_close
     = (mkWorld (vars listening_connected) CLOSED OPEN, []).
Proof. split; vm_compute; reflexivity. Qed.

(** ** Readiness checks *)

(** C6, as the code has it -- Only the audio-append of a caller-audio
    event is preceded by a readiness check: it is sent when the OpenAI
    socket is open and skipped otherwise.  Every other send is issued
    without looking at the state of either socket: the sends of any other
    event are the same whatever the two [readyState]s. *)
Theorem C6_only_audio_append_is_guarded (w : world) (e : event) :
  (forall ts p,
      e = ev_connection_message (Some (media ts p)) ->
      snd (step w e)
      = if readyState_eqb (openAiWs_readyState w) OPEN
        then [send openAiWs (input_audio_buffer_append p)]
        else [])
  /\ (is_caller_audio e = false ->
      forall ra rc,
        sends (snd (step (mkWorld (vars w) ra rc) e))
        = sends (snd (step w e))).
Proof.
  split.
  - intros ts p ->. destruct w as [s ra rc].
    run_handlers. destruct ra; reflexivity.
  - intros He ra rc.
    destruct e as [ | | [ r | ] | | | [ [ ts p | sid | | name ] | ] | ];
      try discriminate He.
    3: { (* a message of the OpenAI socket *)
      destruct (is_audio_delta r) eqn:Hd.
      - destruct (audio_delta_has_delta r Hd) as [d E].
        now rewrite !(audio_delta_step _ r d Hd E).
      - destruct (is_speech_started r) eqn:Hs.
        + rewrite !(speech_started_step _ r Hs).
          destruct (responseStartTimestampTwilio (vars w)) as [ t | ] eqn:Et.
          * destruct (markQueue (vars w)) as [ | m q ] eqn:Eq.
            -- now rewrite !handleSpeechStartedEvent_idle
                 by (left; exact Eq).
            -- rewrite !(handleSpeechStartedEvent_guarded _ t)
                 by (cbn; congruence).
               reflexivity.
          * now rewrite !handleSpeechStartedEvent_idle by (right; exact Et).
        + now rewrite !(other_message_step _ r Hd Hs). }
    all: destruct w as [s ra0 rc0]; try reflexivity.
    + (* a mark is acknowledged *)
      run_handlers. destruct (markQueue s); reflexivity.
    + (* the caller hangs up: a close, no send *)
      run_handlers. destruct ra, ra0; reflexivity.
Qed.

Lemma C6_only_audio_append_witness :
  sends (snd (step (mkWorld (vars playing) CLOSED CLOSED) speech_started))
  = sends (snd (step playing speech_started)).
Proof.
  apply (proj2 (C6_only_audio_append_is_guarded playing speech_started)).
  reflexivity.
Defined.

(** C6, as stated, fails: a send is issued on a socket that is not open.
    After the caller has hung up, an audio delta still in flight is sent
    on the closed Twilio socket. *)
Lemma C6_counterexample : ~ every_send_is_guarded.
Proof.
  intros H.
  specialize (H (state_after [ev_openAiWs_open; twilio (start (Some "S1"));
                              ev_connection_close])
                (audio_delta "QUJD" (Some "I1"))
                connection (media_event (Some "S1") "QUJD")).
  assert (Hin : In (send connection (media_event (Some "S1") "QUJD"))
                  (snd (step (state_after
                                [ev_openAiWs_open; twilio (start (Some "S1"));
                                 ev_connection_close])
                          (audio_delta "QUJD" (Some "I1")))))
    by (vm_compute; left; reflexivity).
  specialize (H Hin). vm_compute in H. discriminate H.
Qed.

(** ** The start of the response *)

(** What the code keeps of the start of the response: a non-zero value
    is never overwritten (after any event it is the same or unset), and
    the variable is unset exactly by a start event of the Twilio socket
    or by a speech-started message that finds the mark queue non-empty.
    No other message of the OpenAI socket unsets it. *)
Lemma stamp_kept_until_interruption_or_start
  (w : world) (e : event) (t : N) :
  responseStartTimestampTwilio (vars w) = Some t ->
  (t <> 0%N ->
   responseStartTimestampTwilio (vars (fst (step w e))) = Some t
   \/ responseStartTimestampTwilio (vars (fst (step w e))) = None)
  /\ (responseStartTimestampTwilio (vars (fst (step w e))) = None
      <-> is_start e = true
          \/ (exists r,
                 e = ev_openAiWs_message (Some r)
                 /\ is_speech_started r = true
                 /\ markQueue (vars w) <> [])).
Proof.
  intros Et. destruct (step_spec_holds w e) as
    [ r d Hd Ed | r t' Hs Et' Hq | r Hs Hidle | r Hd Hs | | | | | | ts p
    | sid | | name | | ]; cbn [fst vars responseStartTimestampTwilio relayed
                           interrupted set_latestMediaTimestamp
                           set_markQueue is_start].
  all: try (split;
            [ intros _; left; exact Et
            | rewrite Et; split;
              [ discriminate
              | intros [ H | (r' & H & _) ]; discriminate H ] ]; fail).
  - (* an audio delta is relayed *)
    rewrite Et. cbn [JS.not_num]. split.
    + intros Hz. apply N.eqb_neq in Hz. rewrite Hz. now left.
    + split.
      * destruct (t =? 0)%N; discriminate.
      * intros [ H | (r' & [= <-] & Hs & _) ]; [ discriminate H | ].
        unfold is_audio_delta in Hd. apply andb_true_iff in Hd as [Hd _].
        rewrite (audio_delta_not_speech_started r Hd) in Hs. discriminate.
  - (* an interruption *)
    split; [ now right | ]. split; [ | reflexivity ].
    intros _. right. exists r. auto.
  - (* a speech-started message without playback *)
    split; [ now left | ]. rewrite Et. split; [ discriminate | ].
    intros [ H | (r' & _ & _ & Hq) ]; [ discriminate H | ].
    destruct Hidle as [ Hq' | Hn ]; congruence.
  - (* another message of the OpenAI socket *)
    split; [ now left | ]. rewrite Et. split; [ discriminate | ].
    intros [ H | (r' & [= <-] & Hs' & _) ]; [ discriminate H | congruence ].
  - (* start *)
    split; [ now right | ]. split; [ now left | reflexivity ].
Qed.

(** C7 -- The start of the response is not assigned once per utterance.
    Stamped as [0] by a delta relayed before any caller audio of the
    stream, it is stamped again by the next delta of the same utterance,
    because [!responseStartTimestampTwilio] (line 197) holds for [0] as
    it does for [null].  And it is not cleared when an utterance ends
    normally: after the response is done and its only chunk has been
    acknowledged it is still set, so the first delta of the next
    utterance does not stamp it. *)
Theorem C7_stamp_overwritten_and_not_cleared :
  (responseStartTimestampTwilio (vars (state_after first_delta_at_zero))
   = Some 0%N
   /\ responseStartTimestampTwilio
        (vars (state_after (first_delta_at_zero
                            ++ [twilio (media 100 "AAAA");
                                audio_delta "QUJD" (Some "I1")])))
      = Some 100%N)
  /\ (markQueue (vars (state_after utterance_played_out)) = []
      /\ responseStartTimestampTwilio (vars (state_after utterance_played_out))
         = Some 100%N
      /\ responseStartTimestampTwilio
           (vars (state_after (utterance_played_out
                               ++ [twilio (media 900 "AAAA");
                                   audio_delta "QUJD" (Some "I2")])))
         = Some 100%N).
Proof. repeat split; vm_compute; reflexivity. Qed.

(** ** The mark queue *)

(** Under a truthy [streamSid] a relayed audio delta sends one media
    event and one mark, and queues one mark. *)
Lemma relay_queues_one_mark w r d :
  is_audio_delta r = true -> delta r = Some d ->
  JS.truthy (streamSid (vars w)) = true ->
  markQueue (vars (fst (step w (ev_openAiWs_message (Some r)))))
  = markQueue (vars w) ++ ["responsePart"]
  /\ count is_media (snd (step w (ev_openAiWs_message (Some r)))) = 1%nat
  /\ count is_mark (snd (step w (ev_openAiWs_message (Some r)))) = 1%nat.
Proof.
  intros Hd Ed Hsid. rewrite (audio_delta_step w r d Hd Ed).
  unfold relay_effects. cbn. rewrite Hsid. repeat split.
Qed.

(** The queue only gets shorter by the acknowledgment of a mark, which
    removes its head, or by an interruption, which empties it. *)
Lemma markQueue_shrinks_only w e :
  (List.length (markQueue (vars (fst (step w e))))
   < List.length (markQueue (vars w)))%nat ->
  (e = ev_connection_message (Some mark)
   /\ markQueue (vars (fst (step w e))) = tl (markQueue (vars w)))
  \/ (exists r,
         e = ev_openAiWs_message (Some r) /\ is_speech_started r = true
         /\ interruption_guard (vars w)
         /\ markQueue (vars (fst (step w e))) = []).
Proof.
  destruct (step_spec_holds w e); cbn; intros Hlt; try lia.
  - destruct (JS.truthy _); [ rewrite length_app in Hlt; cbn in Hlt | ]; lia.
  - right. exists r. repeat split; auto. congruence.
  - left. auto.
Qed.

(** Once the stream is named, the length of the queue is the number of
    relayed chunks that await acknowledgment. *)
Lemma pending_step w e :
  JS.truthy (streamSid (vars w)) = true ->
  start_names_stream e = true ->
  JS.truthy (streamSid (vars (fst (step w e)))) = true
  /\ List.length (markQueue (vars (fst (step w e))))
     = pending_after (List.length (markQueue (vars w))) e (snd (step w e)).
Proof.
  intros Hsid He. unfold pending_after.
  destruct (step_spec_holds w e); cbn; auto; try (split; [ exact Hsid | lia ]).
  - (* an audio delta is relayed *)
    split; [ exact Hsid | ].
    unfold relay_effects. rewrite Hsid. cbn. rewrite length_app. cbn. lia.
  - (* an interruption *)
    rewrite existsb_app. cbn. rewrite orb_true_r. auto.
  - (* caller audio *)
    split; [ exact Hsid | ]. destruct (readyState_eqb _ _); cbn; lia.
  - (* start *)
    split; [ exact He | lia ].
  - (* a mark is acknowledged *)
    split; [ exact Hsid | ]. destruct (markQueue (vars w)); cbn; lia.
  - (* the caller hangs up *)
    split; [ exact Hsid | ]. destruct (readyState_eqb _ _); cbn; lia.
Qed.

Lemma pending_from_named w es :
  JS.truthy (streamSid (vars w)) = true ->
  forallb start_names_stream es = true ->
  List.length (markQueue (vars (fst (run w es))))
  = pending_from w (List.length (markQueue (vars w))) es.
Proof.
  revert w. induction es as [ | e es IH ]; intros w Hsid Hes.
  - reflexivity.
  - cbn in Hes. apply andb_true_iff in Hes as [He Hes].
    destruct (pending_step w e Hsid He) as [Hsid' Hlen].
    cbn [run pending_from]. destruct (step w e) as [w1 o1].
    cbn [fst snd] in Hsid', Hlen. rewrite <- Hlen.
    rewrite <- (IH w1 Hsid' Hes).
    destruct (run w1 es) as [w2 o2]. reflexivity.
Qed.

Lemma markQueue_counts_pending_chunks sid es :
  forallb start_names_stream (twilio (start sid) :: es) = true ->
  List.length (markQueue (vars (state_after (twilio (start sid) :: es))))
  = pending (twilio (start sid) :: es).
Proof.
  intros H. cbn in H. apply andb_true_iff in H as [Hsid Hes].
  unfold state_after, pending. cbn [run pending_from].
  change (step initial_world (twilio (start sid)))
    with (mkWorld (mkSession sid 0%N None [] None) CONNECTING OPEN,
          @nil effect).
  pose proof (pending_from_named
                (mkWorld (mkSession sid 0%N None [] None)
                   CONNECTING OPEN) es Hsid Hes) as H.
  cbn [vars markQueue List.length] in H. cbv beta iota zeta.
  change (pending_after 0 (twilio (start sid)) []) with 0%nat.
  rewrite <- H. destruct (run _ es) as [w2 o2]. reflexivity.
Qed.

(** C8 -- An audio delta that arrives while [streamSid] is unset is
    relayed (one media event is sent) and no mark is queued: the queue is
    shorter than the number of relayed chunks awaiting acknowledgment. *)
Theorem C8_delta_relayed_without_mark :
  count is_media (effects_of [audio_delta "QUJD" (Some "I1")]) = 1%nat
  /\ count is_mark (effects_of [audio_delta "QUJD" (Some "I1")]) = 0%nat
  /\ pending [audio_delta "QUJD" (Some "I1")] = 1%nat
  /\ markQueue (vars (state_after [audio_delta "QUJD" (Some "I1")])) = [].
Proof. repeat split; vm_compute; reflexivity. Qed.

(** C9, as the code has it -- Every mark event ever sent carries a
    [streamSid] that is not null.  In a run in which every start event
    carries a [streamSid] (line 235 stores what the message has, null or
    absent included), a non-empty [markQueue] implies that [streamSid]
    is not null in the state reached, and every clear event sent carries
    a [streamSid] that is not null. *)
Theorem C9_queued_marks_have_streamSid (es : list event) :
  (forall t sid name,
      In (send t (mark_event sid name)) (effects_of es) -> sid <> None)
  /\ (forallb start_has_streamSid es = true ->
      (markQueue (vars (state_after es)) <> [] ->
       streamSid (vars (state_after es)) <> None)
      /\ (forall t sid,
             In (send t (clear_event sid)) (effects_of es) -> sid <> None)).
Proof.
  split.
  - intros t sid name Hin.
    pose proof (mark_names_stream_after es) as H.
    rewrite Forall_forall in H. apply truthy_not_null, (H _ Hin).
  - intros Hes. destruct (queued_implies_streamSid_after es Hes) as [Hs Ho].
    split; [ exact Hs | ].
    intros t sid Hin. rewrite Forall_forall in Ho. apply (Ho _ Hin).
Qed.

Lemma C9_queued_marks_witness :
  (Some "S1" <> None
   /\ streamSid (vars (state_after (interrupted_call ++ [speech_started])))
      <> None)
  /\ Some "S1" <> None.
Proof.
  destruct (C9_queued_marks_have_streamSid
              (interrupted_call ++ [speech_started])) as [H1 H2].
  destruct (H2 eq_refl) as [_ H3].
  destruct (C9_queued_marks_have_streamSid
              (interrupted_call ++ [audio_delta "QUJD" None])) as [_ H4].
  destruct (H4 eq_refl) as [H5 _].
  split; [ split | ].
  - apply (H1 connection (Some "S1") "responsePart").
    vm_compute. right. left. reflexivity.
  - vm_compute. discriminate.
  - apply (H3 connection (Some "S1")).
    vm_compute. right. right. right. left. reflexivity.
Defined.

(** C9, as stated, fails: a second start message without a [streamSid]
    arrives while a mark is queued, so the queue is not empty and
    [streamSid] is null; the next utterance is relayed and interrupted,
    and the clear event is sent with a null [streamSid]. *)
Lemma C9_counterexample :
  markQueue (vars (state_after restart_without_streamSid)) <> []
  /\ streamSid (vars (state_after restart_without_streamSid)) = None
  /\ In (send connection (clear_event None))
       (effects_of (restart_without_streamSid ++ [speech_started])).
Proof.
  split; [ vm_compute; discriminate | ].
  split; [ vm_compute; reflexivity | ].
  vm_compute. tauto.
Qed.

(** ** The payload of a relayed audio delta *)





(** The scenario of the specification: the delta "BBB" is relayed as
    "BBA=". *)
Example delta_BBB_relayed_as_BBA :
  effects_of [twilio (start (Some "S1")); twilio (media 100 "AAA");
              audio_delta "BBB" (Some "I1")]
  = [send connection (media_event (Some "S1") "BBA=");
     send connection (mark_event (Some "S1") "responsePart")].
Proof. vm_compute. reflexivity. Qed.

(* ================================================================= *)
(** * Further properties of the relay session *)

Lemma run_cons w e es :
  run w (e :: es)
  = (fst (run (fst (step w e)) es),
     snd (step w e) ++ snd (run (fst (step w e)) es)).
Proof.
  cbn [run]. destruct (step w e) as [w1 o1].
  cbn [fst snd]. destruct (run w1 es) as [w2 o2]. reflexivity.
Qed.

(** ** Caller audio *)

Lemma appended_app o1 o2 : appended (o1 ++ o2) = appended o1 ++ appended o2.
Proof.
  induction o1 as [ | x o1 IH ]; [ reflexivity | ].
  destruct x as [ [ | ] [ | | | a | | | | ] | t ]; cbn; now rewrite IH.
Qed.

Lemma appended_truncation s t : appended (truncation s t) = [].
Proof. unfold truncation. destruct (JS.truthy _); reflexivity. Qed.

Lemma step_openAiWs_readyState w e :
  openAiWs_readyState (fst (step w e))
  = openAiWs_readyState_after (openAiWs_readyState w) e.
Proof. destruct (step_spec_holds w e); reflexivity. Qed.

Lemma step_appended w e :
  appended (snd (step w e))
  = match e with
    | ev_connection_message (Some (media _ p)) =>
        if readyState_eqb (openAiWs_readyState w) OPEN then [p] else []
    | _ => []
    end.
Proof.
  destruct (step_spec_holds w e); cbn [snd]; try reflexivity.
  - unfold relay_effects. destruct (JS.truthy _); reflexivity.
  - rewrite appended_app, appended_truncation. reflexivity.
  - destruct (readyState_eqb _ _); reflexivity.
  - destruct (readyState_eqb _ _); reflexivity.
Qed.

(** X1 -- The audio-append messages sent on the OpenAI socket during a
    run carry exactly the payloads of the caller-audio events that found
    that socket open, unmodified, once each and in the order of arrival;
    nothing else is ever appended. *)
Theorem X1_caller_audio_forwarded_verbatim (w : world) (es : list event) :
  appended (snd (run w es))
  = caller_audio_while_open (openAiWs_readyState w) es.
Proof.
  revert w. induction es as [ | e es IH ]; intros w.
  - reflexivity.
  - rewrite run_cons. cbn [snd caller_audio_while_open].
    rewrite appended_app, IH, step_appended, step_openAiWs_readyState.
    reflexivity.
Qed.

(** ** Messages that are dropped *)

Lemma dropped_step w e : is_dropped e = true -> step w e = (w, []).
Proof.
  destruct e as [ | | [ r | ] | | | [ [ ts p | sid | | name ] | ] | ];
    cbn [is_dropped]; intros H; try discriminate H; try reflexivity.
  apply andb_true_iff in H as [Hd Hs].
  apply negb_true_iff in Hd. apply negb_true_iff in Hs.
  now apply other_message_step.
Qed.

(** X2 -- A message that does not parse (on either socket), a Twilio
    message of an unknown kind, an OpenAI message that is neither a
    speech-started message nor an audio delta with a non-empty delta, and
    an 'error' event of the OpenAI socket are dropped: a run with such
    events ends in the same state and has sent and closed the same as the
    run without them. *)
Theorem X2_dropped_events_leave_no_trace (w : world) (es : list event) :
  run w (filter (fun e => negb (is_dropped e)) es) = run w es.
Proof.
  revert w. induction es as [ | e es IH ]; intros w.
  - reflexivity.
  - cbn [filter]. destruct (is_dropped e) eqn:He; cbn [negb].
    + rewrite IH, (run_cons w e es), (dropped_step w e He).
      cbn [fst snd app]. now destruct (run w es).
    + rewrite !run_cons, IH. reflexivity.
Qed.

(** ** The stream identifier and the stream clock *)

Lemma step_streamSid w e :
  streamSid (vars (fst (step w e)))
  = stream_of (streamSid (vars w)) [e].
Proof. destruct (step_spec_holds w e); reflexivity. Qed.

Lemma stream_of_cons sid e es :
  stream_of sid (e :: es) = stream_of (stream_of sid [e]) es.
Proof.
  destruct e as [ | | | | | [ [ ts p | s | | name ] | ] | ]; reflexivity.
Qed.

Lemma stream_of_app sid es1 es2 :
  stream_of sid (es1 ++ es2) = stream_of (stream_of sid es1) es2.
Proof.
  revert sid. induction es1 as [ | e es1 IH ]; intros sid.
  - reflexivity.
  - cbn [app]. rewrite (stream_of_cons sid e (es1 ++ es2)), IH.
    now rewrite <- stream_of_cons.
Qed.

Lemma run_streamSid w es :
  streamSid (vars (fst (run w es))) = stream_of (streamSid (vars w)) es.
Proof.
  revert w. induction es as [ | e es IH ]; intros w.
  - reflexivity.
  - rewrite run_cons. cbn [fst].
    now rewrite IH, step_streamSid, <- stream_of_cons.
Qed.

(** X3 -- [streamSid] is a function of the Twilio events alone: after any
    run it is the identifier of the most recent start event, and what it
    was before the run if there was none.  No message of the OpenAI
    socket, no interruption and no close changes it. *)
Theorem X3_streamSid_is_most_recent_start (w : world) (es : list event) :
  streamSid (vars (fst (run w es))) = stream_of (streamSid (vars w)) es.
Proof. apply run_streamSid. Qed.

Lemma step_clock w e :
  latestMediaTimestamp (vars (fst (step w e)))
  = clock_of (latestMediaTimestamp (vars w)) [e].
Proof. destruct (step_spec_holds w e); reflexivity. Qed.

Lemma clock_of_cons t e es :
  clock_of t (e :: es) = clock_of (clock_of t [e]) es.
Proof.
  destruct e as [ | | | | | [ [ ts p | s | | name ] | ] | ]; reflexivity.
Qed.

(** X4 -- [latestMediaTimestamp] is the clock of the stream: after any
    run it is the timestamp of the most recent caller-audio event, [0] if
    a start event came after it, and unchanged if the run has neither.
    The timestamp is recorded whether or not the audio is forwarded, and
    nothing the OpenAI socket delivers changes it. *)
Theorem X4_latestMediaTimestamp_is_stream_clock
  (w : world) (es : list event) :
  latestMediaTimestamp (vars (fst (run w es)))
  = clock_of (latestMediaTimestamp (vars w)) es.
Proof.
  revert w. induction es as [ | e es IH ]; intros w.
  - reflexivity.
  - rewrite run_cons. cbn [fst].
    now rewrite IH, step_clock, <- clock_of_cons.
Qed.

(** Everything a step sends to the Twilio socket carries the
    [streamSid] the event finds. *)
Lemma step_addressed w e :
  Forall (addressed_to (streamSid (vars w))) (snd (step w e)).
Proof.
  destruct (step_spec_holds w e); cbn [snd]; repeat constructor.
  - unfold relay_effects. destruct (JS.truthy _); repeat constructor.
  - apply Forall_app. split; [ | repeat constructor ].
    unfold truncation. destruct (JS.truthy _); repeat constructor.
  - destruct (readyState_eqb _ _); repeat constructor.
  - destruct (readyState_eqb _ _); repeat constructor.
Qed.

(** X5 -- Every media, mark and clear event the relay sends is addressed
    to the stream of the most recent start event received before it (to
    [null] if none has been received). *)
Theorem X5_events_addressed_to_current_stream
  (pre : list event) (e : event) :
  Forall (addressed_to (stream_of None pre)) (snd (step (state_after pre) e)).
Proof.
  change (stream_of None pre)
    with (stream_of (streamSid (vars initial_world)) pre).
  unfold state_after. rewrite <- run_streamSid. apply step_addressed.
Qed.

(** ** The payload of the media events *)

Lemma from_normalize d : Base64.from (Base64.normalize d) = Base64.from d.
Proof.
  unfold Base64.from at 1. rewrite normalize_chars.
  apply decode_encode, decode_bytes.
Qed.

(** X6 -- Relaying an audio delta does not alter the audio: the payload
    of the media event decodes, as base64, to the same bytes as the
    delta received. *)
Theorem X6_relayed_audio_bytes_preserved
  (w : world) (r : response) (d : string) :
  is_audio_delta r = true ->
  delta r = Some d ->
  exists p rest,
    snd (step w (ev_openAiWs_message (Some r)))
    = send connection (media_event (streamSid (vars w)) p) :: rest
    /\ Base64.from p = Base64.from d.
Proof.
  intros Hd Ed. rewrite (audio_delta_step w r d Hd Ed).
  unfold relay_effects. eexists. eexists.
  split; [ reflexivity | apply from_normalize ].
Qed.

Lemma X6_relayed_audio_witness :
  exists p rest,
    snd (step listening (audio_delta "QU-_" (Some "I1")))
    = send connection (media_event (streamSid (vars listening)) p) :: rest
    /\ Base64.from p = Base64.from "QU-_".
Proof.
  apply (X6_relayed_audio_bytes_preserved listening
           (mkResponse "response.audio.delta" (Some "QU-_") (Some "I1"))
           "QU-_"); reflexivity.
Defined.

Lemma canonical_chars_length s :
  Base64.canonical_chars s = true -> (List.length s mod 4 = 0)%nat.
Proof.
  assert (H : forall n s, (List.length s <= n)%nat ->
              Base64.canonical_chars s = true ->
              (List.length s mod 4 = 0)%nat).
  { clear s. induction n as [ | n IH ]; intros l Hl Hc.
    - destruct l; [ reflexivity | simpl in Hl; lia ].
    - destruct l as [ | a [ | b [ | c [ | d r ] ] ] ];
        try reflexivity; try discriminate Hc.
      assert (Hr : (List.length r mod 4 = 0)%nat).
      { cbn [Base64.canonical_chars] in Hc.
        destruct (Base64.unbase64_std a); [ | discriminate ].
        destruct (Base64.unbase64_std b); [ | discriminate ].
        destruct (Ascii.eqb c Base64.pad).
        - apply andb_true_iff in Hc as [_ Hc].
          destruct r; [ reflexivity | discriminate ].
        - destruct (Base64.unbase64_std c); [ | discriminate ].
          destruct (Ascii.eqb d Base64.pad).
          + apply andb_true_iff in Hc as [_ Hc].
            destruct r; [ reflexivity | discriminate ].
          + destruct (Base64.unbase64_std d); [ | discriminate ].
            apply IH; [ simpl in Hl; lia | exact Hc ]. }
      change (List.length (a :: b :: c :: d :: r))
        with (4 + List.length r)%nat.
      rewrite <- (Nat.Div0.add_mod_idemp_r 4 (List.length r) 4), Hr.
      reflexivity. }
  apply (H (List.length s) s (le_n _)).
Qed.

Lemma length_list_ascii_of_string s :
  List.length (list_ascii_of_string s) = String.length s.
Proof. induction s as [ | c s IH ]; cbn; [ reflexivity | now rewrite IH ]. Qed.

Lemma normalize_canonical d :
  Base64.canonical (Base64.normalize d) = true
  /\ (String.length (Base64.normalize d) mod 4 = 0)%nat.
Proof.
  assert (H : Base64.canonical (Base64.normalize d) = true)
    by apply normalize_fixed_iff, normalize_idempotent.
  split; [ exact H | ].
  rewrite <- length_list_ascii_of_string. apply canonical_chars_length, H.
Qed.

Lemma step_media_canonical w e :
  Forall media_payload_canonical (snd (step w e)).
Proof.
  destruct (step_spec_holds w e); cbn [snd]; repeat constructor.
  - apply normalize_canonical.
  - apply normalize_canonical.
  - destruct (JS.truthy _); repeat constructor.
  - apply Forall_app. split; [ | repeat constructor ].
    unfold truncation. destruct (JS.truthy _); repeat constructor.
  - destruct (readyState_eqb _ _); repeat constructor.
  - destruct (readyState_eqb _ _); repeat constructor.
Qed.

Lemma run_effects_Forall (Q : effect -> Prop) :
  (forall w e, Forall Q (snd (step w e))) ->
  forall w es, Forall Q (snd (run w es)).
Proof.
  intros Hstep w es. revert w. induction es as [ | e es IH ]; intros w.
  - constructor.
  - rewrite run_cons. cbn [snd]. apply Forall_app. split; auto.
Qed.

(** X7 -- Whatever the deltas received, every media event the relay
    sends carries canonical base64: characters of the standard alphabet
    in groups of four, padded with '=' (the length of the payload is a
    multiple of 4). *)
Theorem X7_media_payloads_are_canonical
  (w : world) (es : list event) (t : transport) (sid : option string)
  (p : string) :
  In (send t (media_event sid p)) (snd (run w es)) ->
  Base64.canonical p = true /\ (String.length p mod 4 = 0)%nat.
Proof.
  intros Hin.
  pose proof (run_effects_Forall _ step_media_canonical w es) as H.
  rewrite Forall_forall in H. apply (H _ Hin).
Qed.

Lemma X7_media_payloads_witness :
  Base64.canonical "BBA=" = true /\ (String.length "BBA=" mod 4 = 0)%nat.
Proof.
  apply (X7_media_payloads_are_canonical initial_world
           [twilio (start (Some "S1")); audio_delta "BBB" (Some "I1")]
           connection (Some "S1") "BBA=").
  vm_compute. left. reflexivity.
Defined.

(** ** Acknowledgments *)

Lemma mark_step w :
  step w (twilio mark)
  = (mkWorld (set_markQueue (tl (markQueue (vars w))) (vars w))
       (openAiWs_readyState w) (connection_readyState w), []).
Proof.
  destruct w as [[sid lat item q st] ra rc]. destruct q; reflexivity.
Qed.

Lemma skipn_S_tl (A : Type) n (l : list A) : skipn (S n) l = skipn n (tl l).
Proof. destruct l; [ now rewrite !skipn_nil | reflexivity ]. Qed.

(** X8 -- Mark events of the Twilio socket pop the queue from its front,
    one token each, and stop at the empty queue without an error: [n]
    acknowledgments in a row leave the queue without its first [n]
    tokens (empty if it had fewer), change no other variable and send
    nothing. *)
Theorem X8_acknowledgments_pop_the_front (w : world) (n : nat) :
  markQueue (vars (fst (run w (repeat (twilio mark) n))))
  = skipn n (markQueue (vars w))
  /\ streamSid (vars (fst (run w (repeat (twilio mark) n))))
     = streamSid (vars w)
  /\ latestMediaTimestamp (vars (fst (run w (repeat (twilio mark) n))))
     = latestMediaTimestamp (vars w)
  /\ lastAssistantItem (vars (fst (run w (repeat (twilio mark) n))))
     = lastAssistantItem (vars w)
  /\ responseStartTimestampTwilio
       (vars (fst (run w (repeat (twilio mark) n))))
     = responseStartTimestampTwilio (vars w)
  /\ snd (run w (repeat (twilio mark) n)) = [].
Proof.
  revert w. induction n as [ | n IH ]; intros w.
  - repeat split.
  - cbn [repeat]. rewrite run_cons, mark_step. cbn [fst snd app].
    destruct (IH (mkWorld (set_markQueue (tl (markQueue (vars w))) (vars w))
                    (openAiWs_readyState w) (connection_readyState w)))
      as (H1 & H2 & H3 & H4 & H5 & H6).
    rewrite H1, H2, H3, H4, H5, H6, skipn_S_tl. repeat split.
Qed.

(** ** Closing *)

Lemma step_closes w e :
  count is_close (snd (step w e))
  = if is_hang_up e && readyState_eqb (openAiWs_readyState w) OPEN
    then 1%nat else 0%nat.
Proof.
  destruct (step_spec_holds w e); cbn [snd is_hang_up andb]; try reflexivity.
  - unfold relay_effects. destruct (JS.truthy _); reflexivity.
  - rewrite count_app. unfold truncation.
    destruct (JS.truthy _); reflexivity.
  - destruct (readyState_eqb _ _); reflexivity.
  - destruct (readyState_eqb _ _); reflexivity.
Qed.

Lemma step_closes_openAiWs_only w e :
  Forall closes_openAiWs_only (snd (step w e)).
Proof.
  destruct (step_spec_holds w e); cbn [snd]; repeat constructor.
  - unfold relay_effects. destruct (JS.truthy _); repeat constructor.
  - apply Forall_app. split; [ | repeat constructor ].
    unfold truncation. destruct (JS.truthy _); repeat constructor.
  - destruct (readyState_eqb _ _); repeat constructor.
  - destruct (readyState_eqb _ _); repeat constructor.
Qed.

Lemma closes_bounded es :
  (count is_close (effects_of es)
   + (if readyState_eqb (openAiWs_readyState (state_after es)) OPEN
      then 1 else 0)
   <= List.length (filter is_openAiWs_open es))%nat
  /\ (count is_close (effects_of es)
      <= List.length (filter is_hang_up es))%nat.
Proof.
  induction es as [ | e es [IH1 IH2] ] using rev_ind.
  - unfold effects_of, state_after, count. cbn. lia.
  - rewrite effects_of_snoc, state_after_snoc, count_app, !filter_app,
      !length_app, step_closes, step_openAiWs_readyState.
    destruct e; cbn [is_hang_up is_openAiWs_open filter List.length andb
                       openAiWs_readyState_after];
      destruct (readyState_eqb (openAiWs_readyState (state_after es)) OPEN)
        eqn:E;
      cbn [readyState_eqb]; rewrite ?E; lia.
Qed.

(** X9 -- The relay never closes the Twilio socket, and it calls [close]
    on the OpenAI socket at most once for each time that socket has
    opened and at most once for each hang-up of the caller. *)
Theorem X9_only_openAiWs_is_closed_and_once (es : list event) :
  Forall closes_openAiWs_only (effects_of es)
  /\ (count is_close (effects_of es)
      <= List.length (filter is_openAiWs_open es))%nat
  /\ (count is_close (effects_of es)
      <= List.length (filter is_hang_up es))%nat.
Proof.
  split.
  - apply run_effects_Forall, step_closes_openAiWs_only.
  - destruct (closes_bounded es) as [H1 H2]. split; [ | exact H2 ].
    destruct (readyState_eqb _ _) in H1; lia.
Qed.

(** ** The configuration of the OpenAI session *)

Lemma step_bootstrap w e :
  filter is_bootstrap (snd (step w e))
  = if is_timeout e then bootstrap_messages else [].
Proof.
  destruct (step_spec_holds w e); cbn [snd is_timeout]; try reflexivity.
  - unfold relay_effects. destruct (JS.truthy _); reflexivity.
  - rewrite filter_app. unfold truncation.
    destruct (JS.truthy _); reflexivity.
  - destruct (readyState_eqb _ _); reflexivity.
  - destruct (readyState_eqb _ _); reflexivity.
Qed.

(** X10 -- The session configuration, the opening conversation item and
    the request for a response are sent by the timer of the 'open'
    handler and by nothing else: among the effects of a run they appear
    only as that triple, in that order, once for each expiry of the
    timer, whatever the state of the session. *)
Theorem X10_bootstrap_sent_once_per_timer (w : world) (es : list event) :
  filter is_bootstrap (snd (run w es))
  = flat_map (fun e => if is_timeout e then bootstrap_messages else []) es.
Proof.
  revert w. induction es as [ | e es IH ]; intros w.
  - reflexivity.
  - rewrite run_cons. cbn [snd flat_map].
    now rewrite filter_app, IH, step_bootstrap.
Qed.

(** ** Who sends what *)

(** X11 -- A message of the Twilio socket makes the relay send nothing
    but audio-appends on the OpenAI socket; a message of the OpenAI
    socket nothing but media, mark and clear events on the Twilio socket
    and truncates on the OpenAI socket; the timer exactly the three
    messages of the session bootstrap; a hang-up at most a close of the
    OpenAI socket; and the 'open', 'close' and 'error' events of the
    OpenAI socket nothing at all. *)
Theorem X11_effects_by_kind_of_event (w : world) (e : event) :
  allowed_effects e (snd (step w e)).
Proof.
  destruct (step_spec_holds w e); cbn [snd allowed_effects];
    try reflexivity; try apply Forall_nil.
  - unfold relay_effects. destruct (JS.truthy _); repeat constructor.
  - apply Forall_app. split; [ | repeat constructor ].
    unfold truncation. destruct (JS.truthy _); repeat constructor.
  - destruct (readyState_eqb _ _); repeat constructor.
  - destruct (readyState_eqb _ _); [ now right | now left ].
Qed.

(** ** A new stream, and a second speech-started message *)

Lemma start_step w sid :
  step w (twilio (start sid))
  = (mkWorld
       (mkSession sid 0%N (lastAssistantItem (vars w))
          (markQueue (vars w)) None)
       (openAiWs_readyState w) (connection_readyState w), []).
Proof. destruct w as [[sid0 lat item q st] ra rc]. reflexivity. Qed.

(** X12 -- A start event resets the stream clock and the start of the
    response whatever the state, names the stream, and keeps the mark
    queue and the last assistant item.  A speech-started message that
    follows it is therefore not an interruption, even with marks still
    queued: nothing is truncated or cleared until another audio delta is
    relayed. *)
Theorem X12_start_suspends_interruption
  (w : world) (sid : option string) (r : response) :
  is_speech_started r = true ->
  vars (fst (step w (twilio (start sid))))
  = mkSession sid 0%N (lastAssistantItem (vars w))
      (markQueue (vars w)) None
  /\ snd (step w (twilio (start sid))) = []
  /\ step (fst (step w (twilio (start sid)))) (ev_openAiWs_message (Some r))
     = (fst (step w (twilio (start sid))), []).
Proof.
  intros Hr. rewrite start_step. cbn [fst snd vars].
  repeat split.
  rewrite (speech_started_step _ r Hr).
  apply handleSpeechStartedEvent_idle. right. reflexivity.
Qed.

Lemma X12_start_suspends_witness :
  vars (fst (step playing (twilio (start (Some "S2")))))
  = mkSession (Some "S2") 0%N (Some "I1") ["responsePart"] None
  /\ snd (step playing (twilio (start (Some "S2")))) = []
  /\ step (fst (step playing (twilio (start (Some "S2"))))) speech_started
     = (fst (step playing (twilio (start (Some "S2")))), []).
Proof.
  apply (X12_start_suspends_interruption playing (Some "S2")
           (mkResponse "input_audio_buffer.speech_started" None None)).
  reflexivity.
Defined.

(** X13 -- An interruption is not repeated: whatever a speech-started
    message did, a second one right after it changes nothing and sends
    nothing, so no item is truncated twice and no second clear is sent. *)
Theorem X13_second_speech_started_is_idle (w : world) (r r' : response) :
  is_speech_started r = true ->
  is_speech_started r' = true ->
  step (fst (step w (ev_openAiWs_message (Some r))))
    (ev_openAiWs_message (Some r'))
  = (fst (step w (ev_openAiWs_message (Some r))), []).
Proof.
  intros Hr Hr'.
  rewrite (speech_started_step w r Hr), (speech_started_step _ r' Hr').
  destruct (responseStartTimestampTwilio (vars w)) as [ t | ] eqn:Et.
  - destruct (markQueue (vars w)) as [ | m q ] eqn:Eq.
    + rewrite (handleSpeechStartedEvent_idle w) by (left; exact Eq).
      apply handleSpeechStartedEvent_idle. left. exact Eq.
    + rewrite (handleSpeechStartedEvent_guarded w t Et)
        by (rewrite Eq; discriminate).
      apply handleSpeechStartedEvent_idle. left. reflexivity.
  - rewrite (handleSpeechStartedEvent_idle w) by (right; exact Et).
    apply handleSpeechStartedEvent_idle. right. exact Et.
Qed.

Lemma X13_second_speech_started_witness :
  step (fst (step playing speech_started)) speech_started
  = (fst (step playing speech_started), []).
Proof.
  apply (X13_second_speech_started_is_idle playing
           (mkResponse "input_audio_buffer.speech_started" None None)
           (mkResponse "input_audio_buffer.speech_started" None None));
    reflexivity.
Defined.

(** ** The item that is truncated *)

Lemma truncate_names_item w e tr id idx ms :
  In (send tr (conversation_item_truncate id idx ms)) (snd (step w e)) ->
  lastAssistantItem (vars w) = id /\ JS.truthy id = true.
Proof.
  destruct (step_spec_holds w e); cbn [snd]; intros Hin;
    try (cbn in Hin; intuition discriminate).
  - unfold relay_effects in Hin.
    destruct (JS.truthy (streamSid (vars w)));
      cbn in Hin; intuition discriminate.
  - apply in_app_or in Hin as [ Hin | Hin ];
      [ | cbn in Hin; intuition discriminate ].
    unfold truncation in Hin.
    destruct (JS.truthy (lastAssistantItem (vars w))) eqn:E;
      [ | contradiction ].
    destruct Hin as [ Hin | [] ]. injection Hin as _ <- _ _. auto.
  - destruct (readyState_eqb _ _); cbn in Hin; intuition discriminate.
  - destruct (readyState_eqb _ _); cbn in Hin; intuition discriminate.
Qed.

Lemma item_was_relayed_snoc es e item :
  item_was_relayed es item -> item_was_relayed (es ++ [e]) item.
Proof.
  intros [ H | (r & [Hin Hd] & Hi & Ht) ]; [ now left | right ].
  exists r. repeat split; auto. apply in_or_app. now left.
Qed.

Lemma item_was_relayed_after es :
  item_was_relayed es (lastAssistantItem (vars (state_after es))).
Proof.
  induction es as [ | e es IH ] using rev_ind.
  - left. reflexivity.
  - rewrite state_after_snoc.
    destruct (step_spec_holds (state_after es) e); cbn [fst vars];
      try (apply item_was_relayed_snoc; exact IH).
    + (* an audio delta is relayed *)
      cbn [relayed lastAssistantItem].
      destruct (JS.truthy (item_id r)) eqn:Ht.
      * right. exists r. repeat split; auto.
        apply in_or_app. right. now left.
      * apply item_was_relayed_snoc. exact IH.
    + (* an interruption *)
      left. reflexivity.
Qed.

(** X14 -- The relay only truncates what it has relayed: the item named
    in a truncate instruction is a non-empty [item_id] of an audio delta
    received and relayed earlier in the run. *)
Theorem X14_truncated_item_was_relayed
  (pre : list event) (e : event) (tr : transport) (id : option string)
  (idx ms : Z) :
  In (send tr (conversation_item_truncate id idx ms))
    (snd (step (state_after pre) e)) ->
  exists r,
    In (ev_openAiWs_message (Some r)) pre
    /\ is_audio_delta r = true
    /\ item_id r = id
    /\ JS.truthy id = true.
Proof.
  intros Hin. destruct (truncate_names_item _ _ _ _ _ _ Hin) as [Hi Ht].
  pose proof (item_was_relayed_after pre) as [ H | (r & [Hr Hd] & Hid & _) ].
  - rewrite Hi in H. rewrite H in Ht. discriminate Ht.
  - exists r. rewrite Hi in Hid. auto.
Qed.

Lemma X14_truncated_item_witness :
  exists r,
    In (ev_openAiWs_message (Some r)) interrupted_call
    /\ is_audio_delta r = true
    /\ item_id r = Some "I1"
    /\ JS.truthy (Some "I1") = true.
Proof.
  apply (X14_truncated_item_was_relayed interrupted_call speech_started
           openAiWs (Some "I1") 0%Z 150%Z).
  vm_compute. left. reflexivity.
Defined.

(** ** Before the first start event *)

Lemma before_start_no_truncate w e :
  before_start w ->
  Forall (fun x => is_truncate x = false) (snd (step w e)).
Proof.
  intros [_ Hq]. apply Forall_forall. intros x Hin.
  destruct x as [ [ | ] [ | | | a | id idx ms | s p | s n | s ] | t ];
    try reflexivity.
  destruct (truncate_emitted _ _ _ _ _ _ Hin) as (t & _ & Hne & _).
  contradiction.
Qed.

(** X15 -- Until the first start event has been received the relay sends
    no mark, no clear and no truncate, whatever else arrives, and
    [streamSid] stays null and the mark queue empty: no interruption can
    take place before the stream has started. *)
Theorem X15_no_playback_control_before_start (es : list event) :
  forallb (fun e => negb (is_start e)) es = true ->
  streamSid (vars (state_after es)) = None
  /\ markQueue (vars (state_after es)) = []
  /\ Forall no_playback_control (effects_of es).
Proof.
  induction es as [ | e es IH ] using rev_ind; intros H.
  - repeat split. constructor.
  - rewrite forallb_app in H. apply andb_true_iff in H as [Hes He].
    cbn in He. rewrite andb_true_r in He. apply negb_true_iff in He.
    destruct (IH Hes) as (Hsid & Hq & Ho).
    rewrite state_after_snoc, effects_of_snoc.
    destruct (before_start_step _ e He (conj Hsid Hq)) as [[Hsid' Hq'] Ho'].
    pose proof (before_start_no_truncate _ e (conj Hsid Hq)) as Ht.
    repeat split; auto. apply Forall_app. split; [ exact Ho | ].
    rewrite Forall_forall in *. intros x Hin.
    destruct (Ho' x Hin) as [Hm Hc]. repeat split; auto.
Qed.

Lemma X15_no_playback_control_witness :
  streamSid
    (vars (state_after [ev_openAiWs_open; ev_timeout;
                        audio_delta "QUJD" (Some "I1"); speech_started]))
  = None
  /\ markQueue
       (vars (state_after [ev_openAiWs_open; ev_timeout;
                           audio_delta "QUJD" (Some "I1"); speech_started]))
     = []
  /\ Forall no_playback_control
       (effects_of [ev_openAiWs_open; ev_timeout;
                    audio_delta "QUJD" (Some "I1"); speech_started]).
Proof.
  apply (X15_no_playback_control_before_start
           [ev_openAiWs_open; ev_timeout;
            audio_delta "QUJD" (Some "I1"); speech_started]).
  reflexivity.
Defined.

(** ** A hang-up before the OpenAI socket has opened *)

(** X16 -- The 'close' handler of the Twilio socket closes the OpenAI
    socket only if it is open.  If the caller hangs up while that socket
    is still connecting, nothing is closed; the socket opens later, and
    its timer still sends the session configuration, the opening item
    and the request for a response, for a call that has ended. *)
Theorem X16_hang_up_while_connecting (w : world) :
  openAiWs_readyState w = CONNECTING ->
  snd (step w ev_connection_close) = []
  /\ openAiWs_readyState (fst (step w ev_connection_close)) = CONNECTING
  /\ snd (run w hang_up_then_open) = bootstrap_messages
  /\ openAiWs_readyState (fst (run w hang_up_then_open)) = OPEN
  /\ connection_readyState (fst (run w hang_up_then_open)) = CLOSED.
Proof.
  destruct w as [s ra rc]. cbn [openAiWs_readyState]. intros ->.
  repeat split.
Qed.

Lemma X16_hang_up_while_connecting_witness :
  snd (run initial_world hang_up_then_open) = bootstrap_messages.
Proof.
  apply (X16_hang_up_while_connecting initial_world). reflexivity.
Defined.

(** ** The mark queue and the start of the response *)

(** X17 -- In a run that begins with a start event, in which every start
    event names its stream (a non-empty [streamSid]), the length of
    [markQueue] after the run is the number of relayed chunks that await
    acknowledgment: one more for each audio delta relayed, one less for
    each mark event received while there is one, none after an
    interruption. *)
Theorem X17_markQueue_counts_pending_chunks
  (sid : option string) (es : list event) :
  forallb start_names_stream (twilio (start sid) :: es) = true ->
  List.length (markQueue (vars (state_after (twilio (start sid) :: es))))
  = pending (twilio (start sid) :: es).
Proof. apply markQueue_counts_pending_chunks. Qed.

Lemma X17_markQueue_counts_witness :
  List.length
    (markQueue
       (vars (state_after
                (twilio (start (Some "S1"))
                 :: [audio_delta "QUJD" (Some "I1");
                     audio_delta "QUJD" (Some "I1"); twilio mark]))))
  = pending (twilio (start (Some "S1"))
             :: [audio_delta "QUJD" (Some "I1");
                 audio_delta "QUJD" (Some "I1"); twilio mark]).
Proof.
  apply (X17_markQueue_counts_pending_chunks (Some "S1")
           [audio_delta "QUJD" (Some "I1");
            audio_delta "QUJD" (Some "I1"); twilio mark]).
  reflexivity.
Defined.

(** X18 -- The mark queue only gets shorter in two ways: a mark event of
    the Twilio socket removes its first token, or a speech-started
    message that passes the guard of the interruption empties it.  No
    other event shortens it. *)
Theorem X18_markQueue_shrinks_by_pop_or_interruption
  (w : world) (e : event) :
  (List.length (markQueue (vars (fst (step w e))))
   < List.length (markQueue (vars w)))%nat ->
  (e = ev_connection_message (Some mark)
   /\ markQueue (vars (fst (step w e))) = tl (markQueue (vars w)))
  \/ (exists r,
         e = ev_openAiWs_message (Some r) /\ is_speech_started r = true
         /\ interruption_guard (vars w)
         /\ markQueue (vars (fst (step w e))) = []).
Proof. apply markQueue_shrinks_only. Qed.

Lemma X18_markQueue_shrinks_witness :
  (twilio mark = ev_connection_message (Some mark)
   /\ markQueue (vars (fst (step playing (twilio mark))))
      = tl (markQueue (vars playing)))
  \/ (exists r,
         twilio mark = ev_openAiWs_message (Some r)
         /\ is_speech_started r = true
         /\ interruption_guard (vars playing)
         /\ markQueue (vars (fst (step playing (twilio mark)))) = []).
Proof.
  apply (X18_markQueue_shrinks_by_pop_or_interruption playing (twilio mark)).
  vm_compute. lia.
Defined.

(** X19 -- A start of the response that is not [0] is never overwritten:
    after any event [responseStartTimestampTwilio] holds the same value
    or is unset.  It is unset exactly by a start event of the Twilio
    socket or by a speech-started message that finds the mark queue
    non-empty; no other message of the OpenAI socket, and so not the end
    of a response, unsets it. *)
Theorem X19_stamp_kept_until_interruption_or_start
  (w : world) (e : event) (t : N) :
  responseStartTimestampTwilio (vars w) = Some t ->
  (t <> 0%N ->
   responseStartTimestampTwilio (vars (fst (step w e))) = Some t
   \/ responseStartTimestampTwilio (vars (fst (step w e))) = None)
  /\ (responseStartTimestampTwilio (vars (fst (step w e))) = None
      <-> is_start e = true
          \/ (exists r,
                 e = ev_openAiWs_message (Some r)
                 /\ is_speech_started r = true
                 /\ markQueue (vars w) <> [])).
Proof. apply stamp_kept_until_interruption_or_start. Qed.

Lemma X19_stamp_kept_witness :
  responseStartTimestampTwilio
    (vars (fst (step playing (audio_delta "QUJD" (Some "I1"))))) = Some 100%N
  \/ responseStartTimestampTwilio
       (vars (fst (step playing (audio_delta "QUJD" (Some "I1"))))) = None.
Proof.
  apply (proj1 (X19_stamp_kept_until_interruption_or_start playing
                  (audio_delta "QUJD" (Some "I1")) 100%N eq_refl)).
  discriminate.
Defined.
